(** * xmlp: the streaming driver of [parser.ts]

    A shallow embedding of [ParserBase], [SAXParser] and [PullParser].

    - A JavaScript string is the list of its UTF-16 code units; [chunk[i]]
      is a one-unit string or [undefined].
    - JavaScript numbers used as counters ([_index], [line], [column]) are
      mathematical integers.
    - The modules [./context.ts] and [./handler.ts] are imported by
      [parser.ts]; what the driver uses of them is taken as an interface
      ([Context_ts], [Handler_ts]).
    - Mutation is explicit state passing; an exception is a [completion];
      calls of listeners and of the stream controller are recorded, in
      order, in a trace of effects. *)

From Stdlib Require Import ZArith Lia.
From stdpp Require Import base gmap list strings.

Open Scope Z_scope.

(** ** JavaScript strings *)

Abbreviation jsstring := (list Z).

(** The value of [s[i]]: a single code unit, or [None] for [undefined]. *)
Abbreviation jschar := (option Z).

Definition js_index (s : jsstring) (i : Z) : jschar :=
  if i <? 0 then None else s !! Z.to_nat i.

Definition js_length (s : jsstring) : Z := Z.of_nat (length s).

(** ['\n'] *)
Definition LF : Z := 10.

(** [c === '\n'] *)
Definition is_LF (c : jschar) : bool :=
  match c with
  | Some u => u =? LF
  | None => false
  end.

(** ** [new TextDecoder().decode(bytes)]

    The platform's UTF-8 decoder (WHATWG Encoding Standard) in its default
    configuration: replacement error mode, BOM not ignored, no streaming.
    Bytes are integers; a [Uint8Array] holds values in 0..255. *)
Module TextDecoder.

Definition REPLACEMENT : Z := 0xFFFD.
Definition BOM : Z := 0xFEFF.

(** A sequence in progress: the bits read so far, the number of
    continuation bytes still needed, and the range allowed for the next
    byte. *)
Record pending := {
  code_point : Z;
  bytes_needed : nat;
  lower_boundary : Z;
  upper_boundary : Z;
}.

Definition between (lo hi b : Z) : bool := (lo <=? b) && (b <=? hi).

(** The decoder's step when no sequence is in progress. *)
Definition lead (b : Z) : list Z * option pending :=
  if between 0x00 0x7F b then ([b], None)
  else if between 0xC2 0xDF b then
    ([], Some {| code_point := Z.land b 0x1F; bytes_needed := 1;
                 lower_boundary := 0x80; upper_boundary := 0xBF |})
  else if between 0xE0 0xEF b then
    ([], Some {| code_point := Z.land b 0xF; bytes_needed := 2;
                 lower_boundary := if b =? 0xE0 then 0xA0 else 0x80;
                 upper_boundary := if b =? 0xED then 0x9F else 0xBF |})
  else if between 0xF0 0xF4 b then
    ([], Some {| code_point := Z.land b 0x7; bytes_needed := 3;
                 lower_boundary := if b =? 0xF0 then 0x90 else 0x80;
                 upper_boundary := if b =? 0xF4 then 0x8F else 0xBF |})
  else ([REPLACEMENT], None).

(** The code points of a byte sequence.  A byte that cannot continue the
    sequence in progress ends it with U+FFFD and is then read again as a
    first byte; input that ends inside a sequence gives U+FFFD. *)
Fixpoint utf8 (st : option pending) (bs : list Z) : list Z :=
  match bs with
  | [] => match st with
          | None => []
          | Some _ => [REPLACEMENT]
          end
  | b :: bs' =>
      match st with
      | None => let '(out, st') := lead b in out ++ utf8 st' bs'
      | Some p =>
          if between (lower_boundary p) (upper_boundary p) b then
            let cp := Z.lor (Z.shiftl (code_point p) 6) (Z.land b 0x3F) in
            match bytes_needed p with
            | 0%nat | 1%nat => cp :: utf8 None bs'
            | S n =>
                utf8 (Some {| code_point := cp; bytes_needed := n;
                              lower_boundary := 0x80;
                              upper_boundary := 0xBF |}) bs'
            end
          else
            let '(out, st') := lead b in
            REPLACEMENT :: out ++ utf8 st' bs'
      end
  end.

(** A leading U+FEFF is dropped, once. *)
Definition strip_bom (cps : list Z) : list Z :=
  match cps with
  | cp :: rest => if cp =? BOM then rest else cps
  | [] => []
  end.

(** A code point as UTF-16 code units. *)
Definition utf16 (cp : Z) : list Z :=
  if cp <? 0x10000 then [cp]
  else [0xD800 + Z.shiftr (cp - 0x10000) 10;
        0xDC00 + Z.land (cp - 0x10000) 0x3FF].

Definition decode (bytes : list Z) : jsstring :=
  flat_map utf16 (strip_bom (utf8 None bytes)).

(** The well-formed UTF-8 byte sequences of more than one byte
    (Unicode, table 3-7). *)
Definition multibyte (bytes : list Z) : bool :=
  match bytes with
  | [b1; b2] => between 0xC2 0xDF b1 && between 0x80 0xBF b2
  | [b1; b2; b3] =>
      ((b1 =? 0xE0) && between 0xA0 0xBF b2
       || between 0xE1 0xEC b1 && between 0x80 0xBF b2
       || (b1 =? 0xED) && between 0x80 0x9F b2
       || between 0xEE 0xEF b1 && between 0x80 0xBF b2)
      && between 0x80 0xBF b3
  | [b1; b2; b3; b4] =>
      ((b1 =? 0xF0) && between 0x90 0xBF b2
       || between 0xF1 0xF3 b1 && between 0x80 0xBF b2
       || (b1 =? 0xF4) && between 0x80 0x8F b2)
      && between 0x80 0xBF b3 && between 0x80 0xBF b4
  | _ => false
  end.

(** The same, as the three shapes such a sequence can have. *)
Inductive shape : list Z -> Prop :=
| shape_2 b1 b2 :
    0xC2 <= b1 <= 0xDF -> between 0x80 0xBF b2 = true -> shape [b1; b2]
| shape_3 b1 b2 b3 :
    0xE0 <= b1 <= 0xEF ->
    between (if b1 =? 0xE0 then 0xA0 else 0x80)
            (if b1 =? 0xED then 0x9F else 0xBF) b2 = true ->
    between 0x80 0xBF b3 = true ->
    shape [b1; b2; b3]
| shape_4 b1 b2 b3 b4 :
    0xF0 <= b1 <= 0xF4 ->
    between (if b1 =? 0xF0 then 0x90 else 0x80)
            (if b1 =? 0xF4 then 0x8F else 0xBF) b2 = true ->
    between 0x80 0xBF b3 = true ->
    between 0x80 0xBF b4 = true ->
    shape [b1; b2; b3; b4].

End TextDecoder.

(** ** What [parser.ts] imports from [./context.ts] *)

Record XMLPosition := { line : Z; column : Z }.

Class Context_ts := {
  XMLParseContext : Type;
  ElementInfo : Type;
  XMLParseError : Type;
  (** [new XMLParseContext(locator)] *)
  new_XMLParseContext : XMLParseContext;
  (** [cx.state] *)
  state : XMLParseContext -> string;
}.

Section Types.
Context `{Context_ts}.

(** [XMLParseEvent]: a tuple whose first component is the event name; the
    payloads are those of the overloads of [SAXParser.on]. *)
Inductive XMLParseEvent :=
| Ev_start_document
| Ev_processing_instruction (procInst : jsstring)
| Ev_sgml_declaration (sgmlDecl : jsstring)
| Ev_text (text : jsstring) (element : ElementInfo) (cdata : bool)
| Ev_doctype (doctype : jsstring)
| Ev_start_prefix_mapping (ns uri : jsstring)
| Ev_start_element (element : ElementInfo)
| Ev_comment (comment : jsstring)
| Ev_end_element (element : ElementInfo)
| Ev_end_prefix_mapping (ns uri : jsstring)
| Ev_end_document
| Ev_error (error : XMLParseError).

(** [event[0]] *)
Definition event_name (event : XMLParseEvent) : string :=
  match event with
  | Ev_start_document => "start_document"
  | Ev_processing_instruction _ => "processing_instruction"
  | Ev_sgml_declaration _ => "sgml_declaration"
  | Ev_text _ _ _ => "text"
  | Ev_doctype _ => "doctype"
  | Ev_start_prefix_mapping _ _ => "start_prefix_mapping"
  | Ev_start_element _ => "start_element"
  | Ev_comment _ => "comment"
  | Ev_end_element _ => "end_element"
  | Ev_end_prefix_mapping _ _ => "end_prefix_mapping"
  | Ev_end_document => "end_document"
  | Ev_error _ => "error"
  end.

(** A thrown value; [e instanceof XMLParseError] tells the two apart. *)
Inductive exn :=
| Throw_XMLParseError (e : XMLParseError)
| Throw_Error (message : string).

Inductive completion (A : Type) :=
| Normal (a : A)
| Throw (e : exn).

End Types.

Arguments Normal {_ _} a.
Arguments Throw {_ _} e.

(** [XMLParseHandler]: called with the context and one character, it updates
    the context and returns its events or throws.  The context holds the
    parser as [XMLLocator], so the handler can read the current position. *)
Abbreviation XMLParseHandler :=
  (XMLPosition -> XMLParseContext -> jschar ->
   XMLParseContext * completion (list XMLParseEvent)).

(** ** What [parser.ts] imports from [./handler.ts] *)
Class Handler_ts `{Context_ts} := {
  handleBeforeDocument : XMLParseHandler;
  handleGeneralStuff : XMLParseHandler;
  handleFoundLT : XMLParseHandler;
  handleProcInst : XMLParseHandler;
  handleProcInstEnding : XMLParseHandler;
  handleSgmlDecl : XMLParseHandler;
  handleCdata : XMLParseHandler;
  handleCdataEnding : XMLParseHandler;
  handleCdataEnding2 : XMLParseHandler;
  handleComment : XMLParseHandler;
  handleCommentEnding : XMLParseHandler;
  handleCommentEnding2 : XMLParseHandler;
  handleDoctype : XMLParseHandler;
  handleStartTag : XMLParseHandler;
  handleStartTagStuff : XMLParseHandler;
  handleEmptyElementTag : XMLParseHandler;
  handleAttributeName : XMLParseHandler;
  handleAttributeNameSawWhite : XMLParseHandler;
  handleAttributeEqual : XMLParseHandler;
  handleAttributeValueStart : XMLParseHandler;
  handleAttributeValueEnd : XMLParseHandler;
  handleEndTag : XMLParseHandler;
  handleEndTagSawWhite : XMLParseHandler;
  handleAfterDocument : XMLParseHandler;
}.

(** ** [ParserBase]

    [_handlers] is the object's own properties; a state named like a member
    of [Object.prototype] is outside the model. *)
Section ParserBase.
Context `{Handler_ts}.

Record ParserBase := {
  _cx : XMLParseContext;
  _handlers : gmap string XMLParseHandler;
  _chunk : jsstring;
  _index : Z;
  _position : XMLPosition;
}.

(** [this._handlers[state] = handler] *)
Definition appendHandler (state : string) (handler : XMLParseHandler)
    (this : ParserBase) : ParserBase :=
  {| _cx := _cx this;
     _handlers := <[state := handler]> (_handlers this);
     _chunk := _chunk this;
     _index := _index this;
     _position := _position this |}.

(** The field initialisers. *)
Definition ParserBase_fields : ParserBase :=
  {| _cx := new_XMLParseContext;
     _handlers := ∅;
     _chunk := [];
     _index := -1;
     _position := {| line := 1; column := 0 |} |}.

(** The state names and handlers of the constructor, in its order. *)
Definition registrations : list (string * XMLParseHandler) :=
  [ ("BEFORE_DOCUMENT", handleBeforeDocument);
    ("GENERAL_STUFF", handleGeneralStuff);
    ("FOUND_LT", handleFoundLT);
    ("PROC_INST", handleProcInst);
    ("PROC_INST_ENDING", handleProcInstEnding);
    ("SGML_DECL", handleSgmlDecl);
    ("CDATA", handleCdata);
    ("CDATA_ENDING", handleCdataEnding);
    ("CDATA_ENDING_2", handleCdataEnding2);
    ("COMMENT", handleComment);
    ("COMMENT_ENDING", handleCommentEnding);
    ("COMMENT_ENDING_2", handleCommentEnding2);
    ("DOCTYPE", handleDoctype);
    ("START_TAG", handleStartTag);
    ("START_TAG_STUFF", handleStartTagStuff);
    ("EMPTY_ELEMENT_TAG", handleEmptyElementTag);
    ("ATTRIBUTE_NAME", handleAttributeName);
    ("ATTRIBUTE_NAME_SAW_WHITE", handleAttributeNameSawWhite);
    ("ATTRIBUTE_EQUAL", handleAttributeEqual);
    ("ATTRIBUTE_VALUE_START", handleAttributeValueStart);
    ("ATTRIBUTE_VALUE_END", handleAttributeValueEnd);
    ("END_TAG", handleEndTag);
    ("END_TAG_SAW_WHITE", handleEndTagSawWhite);
    ("AFTER_DOCUMENT", handleAfterDocument) ].

(** [constructor()]: the [appendHandler] calls, first to last. *)
Definition constructor : ParserBase :=
  foldl (fun this r => appendHandler r.1 r.2 this)
        ParserBase_fields registrations.

(** [get cx], [get handlers], [get position] *)
Definition cx (this : ParserBase) : XMLParseContext := _cx this.
Definition handlers (this : ParserBase) : gmap string XMLParseHandler :=
  _handlers this.
Definition position (this : ParserBase) : XMLPosition := _position this.

(** [set chunk(chunk)] *)
Definition set_chunk (chunk : jsstring) (this : ParserBase) : ParserBase :=
  {| _cx := _cx this;
     _handlers := _handlers this;
     _chunk := chunk;
     _index := -1;
     _position := _position this |}.

(** [hasNext()] *)
Definition hasNext (this : ParserBase) : bool :=
  _index this <? js_length (_chunk this) - 1.

(** The position after consuming [c]. *)
Definition advance (pos : XMLPosition) (c : jschar) : XMLPosition :=
  if is_LF c then {| line := line pos + 1; column := 0 |}
  else {| line := line pos; column := column pos + 1 |}.

(** [readNext()] *)
Definition readNext (this : ParserBase) : jschar * ParserBase :=
  let index := _index this + 1 in
  let c := js_index (_chunk this) index in
  (c, {| _cx := _cx this;
         _handlers := _handlers this;
         _chunk := _chunk this;
         _index := index;
         _position := advance (_position this) c |}).

(** The context after a handler has run on it. *)
Definition with_cx (cx' : XMLParseContext) (this : ParserBase) : ParserBase :=
  {| _cx := cx';
     _handlers := _handlers this;
     _chunk := _chunk this;
     _index := _index this;
     _position := _position this |}.

(** The number of iterations left to a loop guarded by [hasNext]. *)
Definition remaining (this : ParserBase) : nat :=
  Z.to_nat (js_length (_chunk this) - 1 - _index this).

End ParserBase.


(** ** The host: listener functions and the controller of a writable stream *)
Class Host_js := {
  Listener : Type;
  WritableStreamDefaultController : Type;
}.

(** ** [SAXParser] *)
Module SAXParser.
Section SAXParser.
Context `{Handler_ts} `{Host_js}.

(** What the parser does to its consumer, in the order it does it.
    A listener is assumed to return normally and to leave the parser alone.
    [_listeners], like [_handlers], is the object's own properties: the
    event names are the twelve of the overloads of [on]. *)
Inductive effect :=
| Call (listener : Listener) (event : XMLParseEvent)
| Controller_error (controller : WritableStreamDefaultController)
    (e : XMLParseError).

Record t := {
  base : ParserBase;
  _listeners : gmap string (list Listener);
  _controller : option WritableStreamDefaultController;
}.

(** [new SAXParser()] *)
Definition new : t :=
  {| base := constructor; _listeners := ∅; _controller := None |}.

Definition with_base (b : ParserBase) (this : t) : t :=
  {| base := b;
     _listeners := _listeners this;
     _controller := _controller this |}.

Definition with_controller (c : option WritableStreamDefaultController)
    (this : t) : t :=
  {| base := base this; _listeners := _listeners this; _controller := c |}.

(** [fireListeners(event)]: the calls it makes. *)
Definition fireListeners (event : XMLParseEvent) (this : t) : list effect :=
  let list := default [] (_listeners this !! event_name event) in
  map (fun listener => Call listener event) list.

(** [for (const event of events) this.fireListeners(event)] *)
Definition fireAll (events : list XMLParseEvent) (this : t) : list effect :=
  flat_map (fun event => fireListeners event this) events.

(** The [while] loop of [run].  [None]: the fuel ran out before [hasNext]
    became false. *)
Fixpoint run_loop (fuel : nat) (this : t) (tr : list effect)
    : option (t * list effect * completion ()) :=
  if hasNext (base this) then
    match fuel with
    | O => None
    | S fuel =>
        let state := state (cx (base this)) in
        match handlers (base this) !! state with
        | None =>
            Some (this, tr,
                  Throw (Throw_Error ("Handler for " +:+ state +:+ " not found")))
        | Some handler =>
            let '(c, b) := readNext (base this) in
            let '(cx', r) := handler (position b) (cx b) c in
            let this := with_base (with_cx cx' b) this in
            match r with
            | Normal events => run_loop fuel this (tr ++ fireAll events this)
            | Throw e => Some (this, tr, Throw e)
            end
        end
    end
  else Some (this, tr, Normal ()).

(** [this._controller?.error(e)] *)
Definition controller_error (e : XMLParseError) (this : t) : list effect :=
  match _controller this with
  | Some controller => [Controller_error controller e]
  | None => []
  end.

(** [run()] *)
Definition run (this : t) (tr : list effect)
    : option (t * list effect * completion ()) :=
  match run_loop (remaining (base this)) this tr with
  | None => None
  | Some (this, tr, Normal _) => Some (this, tr, Normal ())
  | Some (this, tr, Throw (Throw_XMLParseError e)) =>
      Some (this,
            tr ++ fireListeners (Ev_error e) this ++ controller_error e this,
            Normal ())
  | Some (this, tr, Throw e) => Some (this, tr, Throw e)
  end.

(** [write(chunk, controller)]: the [finally] clause runs on both exits. *)
Definition write (chunk : list Z)
    (controller : option WritableStreamDefaultController)
    (this : t) (tr : list effect)
    : option (t * list effect * completion ()) :=
  let this := with_controller controller this in
  let this := with_base (set_chunk (TextDecoder.decode chunk) (base this)) this in
  match run this tr with
  | None => None
  | Some (this, tr, r) => Some (with_controller None this, tr, r)
  end.

(** [parse(source)] for a string or a [Uint8Array]. *)
Definition parse (source : jsstring + list Z) (this : t) (tr : list effect)
    : option (t * list effect * completion ()) :=
  match source with
  | inl source => run (with_base (set_chunk source (base this)) this) tr
  | inr source => write source None this tr
  end.

(** [on(event, listener)] *)
Definition on (event : string) (listener : Listener) (this : t) : t :=
  let list := default [] (_listeners this !! event) in
  let list := list ++ [listener] in
  {| base := base this;
     _listeners := <[event := list]> (_listeners this);
     _controller := _controller this |}.

(** A call of the consumer: [parse(source)] or [write(chunk, controller)]. *)
Inductive call :=
| Parse (source : jsstring + list Z)
| Write (chunk : list Z) (controller : option WritableStreamDefaultController).

Definition perform (c : call) (this : t) (tr : list effect)
    : option (t * list effect * completion ()) :=
  match c with
  | Parse source => parse source this tr
  | Write chunk controller => write chunk controller this tr
  end.

(** Calls made one after another on the same parser; a call that throws
    ends the sequence. *)
Fixpoint perform_all (calls : list call) (this : t) (tr : list effect)
    : option (t * list effect * completion ()) :=
  match calls with
  | [] => Some (this, tr, Normal ())
  | c :: calls =>
      match perform c this tr with
      | Some (this, tr, Normal _) => perform_all calls this tr
      | r => r
      end
  end.


End SAXParser.
End SAXParser.

(** ** [PullParser] *)
Module PullParser.
Section PullParser.
Context `{Handler_ts}.

(** [interface PullResult]: [None] is an absent property. *)
Record PullResult := {
  name : string;
  procInst : option jsstring;
  sgmlDecl : option jsstring;
  text : option jsstring;
  element : option ElementInfo;
  cdata : option bool;
  doctype : option jsstring;
  ns : option jsstring;
  uri : option jsstring;
  comment : option jsstring;
  error : option XMLParseError;
}.

(** [{ name }] *)
Definition result (name : string) : PullResult :=
  {| name := name; procInst := None; sgmlDecl := None; text := None;
     element := None; cdata := None; doctype := None; ns := None;
     uri := None; comment := None; error := None |}.

(** [marshallEvent(event)] *)
Definition marshallEvent (event : XMLParseEvent) : PullResult :=
  let name := event_name event in
  let result := result name in
  match event with
  | Ev_processing_instruction e1 =>
      {| name := name; procInst := Some e1; sgmlDecl := None; text := None;
         element := None; cdata := None; doctype := None; ns := None;
         uri := None; comment := None; error := None |}
  | Ev_sgml_declaration e1 =>
      {| name := name; procInst := None; sgmlDecl := Some e1; text := None;
         element := None; cdata := None; doctype := None; ns := None;
         uri := None; comment := None; error := None |}
  | Ev_text e1 e2 e3 =>
      {| name := name; procInst := None; sgmlDecl := None; text := Some e1;
         element := Some e2; cdata := Some e3; doctype := None; ns := None;
         uri := None; comment := None; error := None |}
  | Ev_doctype e1 =>
      {| name := name; procInst := None; sgmlDecl := None; text := None;
         element := None; cdata := None; doctype := Some e1; ns := None;
         uri := None; comment := None; error := None |}
  | Ev_start_prefix_mapping e1 e2 | Ev_end_prefix_mapping e1 e2 =>
      {| name := name; procInst := None; sgmlDecl := None; text := None;
         element := None; cdata := None; doctype := None; ns := Some e1;
         uri := Some e2; comment := None; error := None |}
  | Ev_start_element e1 | Ev_end_element e1 =>
      {| name := name; procInst := None; sgmlDecl := None; text := None;
         element := Some e1; cdata := None; doctype := None; ns := None;
         uri := None; comment := None; error := None |}
  | Ev_comment e1 =>
      {| name := name; procInst := None; sgmlDecl := None; text := None;
         element := None; cdata := None; doctype := None; ns := None;
         uri := None; comment := Some e1; error := None |}
  | Ev_start_document | Ev_end_document | Ev_error _ => result
  end.

(** [{ name: 'error', error: e }] *)
Definition error_result (e : XMLParseError) : PullResult :=
  {| name := "error"; procInst := None; sgmlDecl := None; text := None;
     element := None; cdata := None; doctype := None; ns := None;
     uri := None; comment := None; error := Some e |}.

(** The [while] loop of [parse], with the results yielded so far.
    [None]: the fuel ran out before [hasNext] became false. *)
Fixpoint parse_loop (fuel : nat) (this : ParserBase)
    (yielded : list PullResult)
    : option (ParserBase * list PullResult * completion ()) :=
  if hasNext this then
    match fuel with
    | O => None
    | S fuel =>
        let state := state (cx this) in
        match handlers this !! state with
        | None =>
            Some (this, yielded,
                  Throw (Throw_Error ("Handler for " +:+ state +:+ " not found")))
        | Some handler =>
            let '(c, b) := readNext this in
            let '(cx', r) := handler (position b) (cx b) c in
            let this := with_cx cx' b in
            match r with
            | Normal events =>
                parse_loop fuel this (yielded ++ map marshallEvent events)
            | Throw e => Some (this, yielded, Throw e)
            end
        end
    end
  else Some (this, yielded, Normal ()).

(** [parse(source)], iterated to its end: the results it yields and how it
    ends. *)
Definition parse (source : jsstring + list Z) (this : ParserBase)
    : option (ParserBase * list PullResult * completion ()) :=
  let chunk := match source with
               | inl source => source
               | inr source => TextDecoder.decode source
               end in
  let this := set_chunk chunk this in
  match parse_loop (remaining this) this [] with
  | None => None
  | Some (this, yielded, Normal _) => Some (this, yielded, Normal ())
  | Some (this, yielded, Throw (Throw_XMLParseError e)) =>
      Some (this, yielded ++ [error_result e], Normal ())
  | Some (this, yielded, Throw e) => Some (this, yielded, Throw e)
  end.

(** [parse] called on one source after another, on the same parser, each
    iterated to its end; a call that throws ends the sequence. *)
Fixpoint parse_all (sources : list (jsstring + list Z)) (this : ParserBase)
    : option (ParserBase * list PullResult * completion ()) :=
  match sources with
  | [] => Some (this, [], Normal ())
  | source :: sources =>
      match parse source this with
      | Some (this, yielded, Normal _) =>
          match parse_all sources this with
          | Some (this, more, r) => Some (this, yielded ++ more, r)
          | None => None
          end
      | r => r
      end
  end.

End PullParser.
End PullParser.


(** ** The driver, character by character

    The loops of [SAXParser.run] and [PullParser.parse] are the same but for
    what they do with an event.  [drive hs cs pos cx] is that loop over the
    unread characters [cs], with the events collected: the table lookup, the
    position update of [readNext], the call of the handler, and the exit on
    the first exception. *)
Section Driver.
Context `{Handler_ts}.

Record driven := {
  consumed : nat;
  position_after : XMLPosition;
  cx_after : XMLParseContext;
  emitted : list XMLParseEvent;
  outcome : completion ();
}.

Definition handler_not_found (state : string) : exn :=
  Throw_Error ("Handler for " +:+ state +:+ " not found").

Fixpoint drive (hs : gmap string XMLParseHandler) (cs : jsstring)
    (pos : XMLPosition) (cx : XMLParseContext) : driven :=
  match cs with
  | [] =>
      {| consumed := 0; position_after := pos; cx_after := cx;
         emitted := []; outcome := Normal () |}
  | c :: cs =>
      match hs !! state cx with
      | None =>
          {| consumed := 0; position_after := pos; cx_after := cx;
             emitted := []; outcome := Throw (handler_not_found (state cx)) |}
      | Some handler =>
          let pos := advance pos (Some c) in
          let '(cx, r) := handler pos cx (Some c) in
          match r with
          | Normal events =>
              let d := drive hs cs pos cx in
              {| consumed := S (consumed d);
                 position_after := position_after d;
                 cx_after := cx_after d;
                 emitted := events ++ emitted d;
                 outcome := outcome d |}
          | Throw e =>
              {| consumed := 1; position_after := pos; cx_after := cx;
                 emitted := []; outcome := Throw e |}
          end
      end
  end.

(** The characters a parser has not read yet. *)
Definition unread (this : ParserBase) : jsstring :=
  drop (Z.to_nat (_index this + 1)) (_chunk this).

(** The parser after the loop has run as [d] says. *)
Definition after (d : driven) (this : ParserBase) : ParserBase :=
  {| _cx := cx_after d;
     _handlers := _handlers this;
     _chunk := _chunk this;
     _index := _index this + Z.of_nat (consumed d);
     _position := position_after d |}.

(** The events of a run over one chunk that the consumer is told of:
    those of the handlers, and ['error'] for a caught [XMLParseError]. *)
Definition notified (d : driven) : list XMLParseEvent :=
  match outcome d with
  | Throw (Throw_XMLParseError e) => emitted d ++ [Ev_error e]
  | _ => emitted d
  end.

(** How a run over one chunk ends for its caller. *)
Definition propagated (d : driven) : completion () :=
  match outcome d with
  | Throw (Throw_XMLParseError e) => Normal ()
  | r => r
  end.

(** Modelled from the spec: how the handlers of [handler.ts] (not among the
    sources) report a structural error.  A transition function may "flush a
    buffer into zero or more Events" or "raise a structural error": it
    throws the error and returns no event named ['error']; the ['error']
    events are those the driver makes in its [catch] clauses. *)
Definition handlers_throw_errors (hs : gmap string XMLParseHandler) : Prop :=
  forall handler pos cx c cx' events,
    hs !! state cx = Some handler ->
    handler pos cx c = (cx', Normal events) ->
    Forall (fun event => event_name event <> "error") events.

End Driver.

(** ** What the consumers see of a run *)
Section Views.
Context `{Handler_ts} `{Host_js}.

(** The text of a source: a string as it is, bytes decoded. *)
Definition chunk_of (source : jsstring + list Z) : jsstring :=
  match source with
  | inl source => source
  | inr source => TextDecoder.decode source
  end.

(** What [run] tells the stream controller. *)
Definition signalled (d : driven) (this : SAXParser.t)
    : list SAXParser.effect :=
  match outcome d with
  | Throw (Throw_XMLParseError e) => SAXParser.controller_error e this
  | _ => []
  end.

(** The effects of a run of the [SAXParser]. *)
Definition effects (d : driven) (this : SAXParser.t) : list SAXParser.effect :=
  SAXParser.fireAll (notified d) this ++ signalled d this.

(** The text a call hands to the driver. *)
Definition text_of (c : SAXParser.call) : jsstring :=
  match c with
  | SAXParser.Parse source => chunk_of source
  | SAXParser.Write chunk _ => TextDecoder.decode chunk
  end.

(** The same input as a source for [PullParser.parse]. *)
Definition source_of (c : SAXParser.call) : jsstring + list Z :=
  match c with
  | SAXParser.Parse source => source
  | SAXParser.Write chunk _ => inr chunk
  end.

(** The parser while the driver runs for a call: [write] has set the
    controller. *)
Definition during (c : SAXParser.call) (this : SAXParser.t) : SAXParser.t :=
  match c with
  | SAXParser.Parse (inl _) => this
  | SAXParser.Parse (inr _) => SAXParser.with_controller None this
  | SAXParser.Write _ controller => SAXParser.with_controller controller this
  end.

(** The parser when a call returns: [write] has cleared the controller. *)
Definition finished (c : SAXParser.call) (d : driven) (this : SAXParser.t)
    : SAXParser.t :=
  let this :=
    SAXParser.with_base
      (after d (set_chunk (text_of c) (SAXParser.base this))) this in
  match c with
  | SAXParser.Parse (inl _) => this
  | _ => SAXParser.with_controller None this
  end.


(** The results of a run of the [PullParser]. *)
Definition yields (d : driven) : list PullParser.PullResult :=
  map PullParser.marshallEvent (emitted d) ++
  match outcome d with
  | Throw (Throw_XMLParseError e) => [PullParser.error_result e]
  | _ => []
  end.

Definition is_error_event (event : XMLParseEvent) : bool :=
  (event_name event =? "error")%string.

Definition is_error_result (r : PullParser.PullResult) : bool :=
  (PullParser.name r =? "error")%string.

(** The event a result stands for, read from its [name] and from the
    properties that go with that name. *)
Definition event_of (r : PullParser.PullResult) : option XMLParseEvent :=
  let name := PullParser.name r in
  if (name =? "start_document")%string then Some Ev_start_document
  else if (name =? "processing_instruction")%string then
    match PullParser.procInst r with
    | Some p => Some (Ev_processing_instruction p)
    | None => None
    end
  else if (name =? "sgml_declaration")%string then
    match PullParser.sgmlDecl r with
    | Some p => Some (Ev_sgml_declaration p)
    | None => None
    end
  else if (name =? "text")%string then
    match PullParser.text r, PullParser.element r, PullParser.cdata r with
    | Some t, Some e, Some c => Some (Ev_text t e c)
    | _, _, _ => None
    end
  else if (name =? "doctype")%string then
    match PullParser.doctype r with
    | Some p => Some (Ev_doctype p)
    | None => None
    end
  else if (name =? "start_prefix_mapping")%string then
    match PullParser.ns r, PullParser.uri r with
    | Some n, Some u => Some (Ev_start_prefix_mapping n u)
    | _, _ => None
    end
  else if (name =? "start_element")%string then
    match PullParser.element r with
    | Some e => Some (Ev_start_element e)
    | None => None
    end
  else if (name =? "comment")%string then
    match PullParser.comment r with
    | Some p => Some (Ev_comment p)
    | None => None
    end
  else if (name =? "end_element")%string then
    match PullParser.element r with
    | Some e => Some (Ev_end_element e)
    | None => None
    end
  else if (name =? "end_prefix_mapping")%string then
    match PullParser.ns r, PullParser.uri r with
    | Some n, Some u => Some (Ev_end_prefix_mapping n u)
    | _, _ => None
    end
  else if (name =? "end_document")%string then Some Ev_end_document
  else if (name =? "error")%string then
    match PullParser.error r with
    | Some e => Some (Ev_error e)
    | None => None
    end
  else None.





Definition position_ok (pos : XMLPosition) : Prop :=
  1 <= line pos /\ 0 <= column pos.

(** The state names of the constructor. *)
Definition registered_states : list string := registrations.*1.

End Views.

(** ** The dead Context *)

(** Modelled from the spec: the [errored] flag of the Parse Context.  The
    class [XMLParseContext] is declared in [context.ts], which is not among
    the sources; the spec lists [errored] among its flags. *)
Class Errored_ts `{Context_ts} := {
  errored : XMLParseContext -> bool;
}.

Section DeadContext.
Context `{Handler_ts} `{!Errored_ts}.

(** Modelled from the spec: what the handlers of [handler.ts] (not among the
    sources) do about a dead Context.  "Structural error: always halts the
    Context": a handler that throws an [XMLParseError] leaves the context
    with [errored] set.  "Once errored is set, no further events are
    produced by that Context; it is dead": called on such a context a
    handler returns no events, throws nothing and leaves [errored] set.
    "[state]: current FSM state (one of the named states)": in both cases
    the state it leaves has a handler. *)
Record dead_context_discipline (hs : gmap string XMLParseHandler) : Prop := {
  throw_sets_errored :
    forall handler pos cx c cx' e,
      hs !! state cx = Some handler ->
      handler pos cx c = (cx', Throw (Throw_XMLParseError e)) ->
      errored cx' = true /\ is_Some (hs !! state cx');
  errored_is_inert :
    forall handler pos cx c,
      hs !! state cx = Some handler ->
      errored cx = true ->
      exists cx',
        handler pos cx c = (cx', Normal []) /\
        errored cx' = true /\ is_Some (hs !! state cx');
}.

(** A context that is dead, in a state the table knows. *)
Definition dead (hs : gmap string XMLParseHandler) (cx : XMLParseContext)
    : Prop :=
  errored cx = true /\ is_Some (hs !! state cx).

(** A structural error ends the events of a text: none is thrown on it,
    or the handlers keep to the discipline of the dead Context. *)
Definition error_is_final (hs : gmap string XMLParseHandler) (text : jsstring)
    (pos : XMLPosition) (cx : XMLParseContext) : Prop :=
  dead_context_discipline hs \/
  forall e, outcome (drive hs text pos cx) <> Throw (Throw_XMLParseError e).

End DeadContext.

(** ** A small instance

    A context of two fields and one transition function for every state,
    to run the driver on concrete input. *)
Module Demo.

Record context := { d_state : string; d_errored : bool }.

Record parse_error := { message : string; at_position : XMLPosition }.

#[export] Instance context_ts : Context_ts :=
  {| XMLParseContext := context;
     ElementInfo := jsstring;
     XMLParseError := parse_error;
     new_XMLParseContext := {| d_state := "BEFORE_DOCUMENT"; d_errored := false |};
     state := d_state |}.

#[export] Instance errored_ts : Errored_ts := {| errored := d_errored |}.

(** ['<'] starts the document, ['!'] is a structural error, ['#'] makes the
    handler fail with another exception, ['?'] leaves the context in a
    state without handler, any other character is a text of its own. *)
Definition handle : XMLParseHandler :=
  fun pos cx c =>
    if d_errored cx then (cx, Normal [])
    else
      match c with
      | None => (cx, Normal [])
      | Some u =>
          if u =? 60 then
            ({| d_state := "FOUND_LT"; d_errored := false |},
             Normal [Ev_start_document])
          else if u =? 33 then
            ({| d_state := d_state cx; d_errored := true |},
             Throw (Throw_XMLParseError
                      {| message := "unexpected !"; at_position := pos |}))
          else if u =? 35 then (cx, Throw (Throw_Error "TypeError"))
          else if u =? 63 then
            ({| d_state := "NOT_A_STATE"; d_errored := false |}, Normal [])
          else (cx, Normal [Ev_text [u] [] false])
      end.

#[export] Instance handler_ts : Handler_ts :=
  {| handleBeforeDocument := handle;
     handleGeneralStuff := handle;
     handleFoundLT := handle;
     handleProcInst := handle;
     handleProcInstEnding := handle;
     handleSgmlDecl := handle;
     handleCdata := handle;
     handleCdataEnding := handle;
     handleCdataEnding2 := handle;
     handleComment := handle;
     handleCommentEnding := handle;
     handleCommentEnding2 := handle;
     handleDoctype := handle;
     handleStartTag := handle;
     handleStartTagStuff := handle;
     handleEmptyElementTag := handle;
     handleAttributeName := handle;
     handleAttributeNameSawWhite := handle;
     handleAttributeEqual := handle;
     handleAttributeValueStart := handle;
     handleAttributeValueEnd := handle;
     handleEndTag := handle;
     handleEndTagSawWhite := handle;
     handleAfterDocument := handle |}.

(** Listeners and controllers are told apart by a number. *)
#[export] Instance host_js : Host_js :=
  {| Listener := nat; WritableStreamDefaultController := nat |}.

(** A parser with two listeners for ['text'] and one each for
    ['start_document'] and ['error']. *)
Definition sax : SAXParser.t :=
  SAXParser.on "error" 4%nat
    (SAXParser.on "text" 3%nat
       (SAXParser.on "start_document" 2%nat
          (SAXParser.on "text" 1%nat SAXParser.new))).

End Demo.

(** ** Who is told of an error *)
Section Told.
Context `{Handler_ts} `{Host_js}.

(** The errors a trace gives to the consumer: one for each call of a
    listener with an ['error'] event and one for each [controller.error]. *)
Definition errors_told (tr : list SAXParser.effect) : list XMLParseError :=
  flat_map (fun eff =>
              match eff with
              | SAXParser.Call _ (Ev_error e) => [e]
              | SAXParser.Call _ _ => []
              | SAXParser.Controller_error _ e => [e]
              end) tr.

End Told.

(** ** The states of the table *)

(** The states of the table in the comment of [ParserBase] (lines 26-51),
    in its order. *)
Definition STATES : list string :=
  [ "BEFORE_DOCUMENT";
    "GENERAL_STUFF";
    "FOUND_LT";
    "PROC_INST";
    "PROC_INST_ENDING";
    "SGML_DECL";
    "CDATA";
    "CDATA_ENDING";
    "CDATA_ENDING_2";
    "COMMENT";
    "COMMENT_ENDING";
    "COMMENT_ENDING_2";
    "DOCTYPE";
    "START_TAG";
    "START_TAG_STUFF";
    "EMPTY_ELEMENT_TAG";
    "ATTRIBUTE_NAME";
    "ATTRIBUTE_NAME_SAW_WHITE";
    "ATTRIBUTE_EQUAL";
    "ATTRIBUTE_VALUE_START";
    "ATTRIBUTE_VALUE_END";
    "END_TAG";
    "END_TAG_SAW_WHITE";
    "AFTER_DOCUMENT" ]%string.

Section States.
Context `{Handler_ts} `{Host_js}.

(** Modelled from the spec: the states a Context of [context.ts] and the
    transition functions of [handler.ts] (neither among the sources) can
    be in and go to.  "[state]: current FSM state (one of the named
    states)": a new Context is in a state of the table of [ParserBase],
    and a transition function, whether it returns or throws, leaves the
    Context in a state of that table. *)
Definition states_closed (hs : gmap string XMLParseHandler) : Prop :=
  state new_XMLParseContext ∈ STATES /\
  forall handler pos cx c cx' r,
    hs !! state cx = Some handler ->
    handler pos cx c = (cx', r) ->
    state cx' ∈ STATES.

(** The loop over the characters [cs] does not take the missing-handler
    branch: the state has a handler at each character read, up to the end
    of [cs] or the first exception of a handler.  It follows [drive]. *)
Fixpoint always_handled (hs : gmap string XMLParseHandler) (cs : jsstring)
    (pos : XMLPosition) (cx : XMLParseContext) : bool :=
  match cs with
  | [] => true
  | c :: cs =>
      match hs !! state cx with
      | None => false
      | Some handler =>
          let pos := advance pos (Some c) in
          let '(cx, r) := handler pos cx (Some c) in
          match r with
          | Normal _ => always_handled hs cs pos cx
          | Throw _ => true
          end
      end
  end.

(** The [SAXParser]s a consumer can have: a new one, and one it has
    subscribed a listener to, or called [parse] or [write] on, however the
    call ended. *)
Inductive sax_reachable : SAXParser.t -> Prop :=
| sax_reachable_new : sax_reachable SAXParser.new
| sax_reachable_on (event : string) (listener : Listener) (this : SAXParser.t) :
    sax_reachable this -> sax_reachable (SAXParser.on event listener this)
| sax_reachable_perform (c : SAXParser.call) (this this' : SAXParser.t)
    (tr tr' : list SAXParser.effect) (r : completion ()) :
    sax_reachable this ->
    SAXParser.perform c this tr = Some (this', tr', r) ->
    sax_reachable this'.

(** The [PullParser]s a consumer can have: a new one, and one it has
    iterated [parse] on to its end, however it ended. *)
Inductive pull_reachable : ParserBase -> Prop :=
| pull_reachable_new : pull_reachable constructor
| pull_reachable_parse (source : jsstring + list Z) (this this' : ParserBase)
    (yielded : list PullParser.PullResult) (r : completion ()) :
    pull_reachable this ->
    PullParser.parse source this = Some (this', yielded, r) ->
    pull_reachable this'.

End States.

(** ** A second small instance, which keeps to the states of the table *)
Module Tidy.
Import Demo.

(** The transition function of the first instance without its ['?']. *)
Definition handle : XMLParseHandler :=
  fun pos cx c =>
    if d_errored cx then (cx, Normal [])
    else
      match c with
      | None => (cx, Normal [])
      | Some u =>
          if u =? 60 then
            ({| d_state := "FOUND_LT"; d_errored := false |},
             Normal [Ev_start_document])
          else if u =? 33 then
            ({| d_state := d_state cx; d_errored := true |},
             Throw (Throw_XMLParseError
                      {| message := "unexpected !"; at_position := pos |}))
          else if u =? 35 then (cx, Throw (Throw_Error "TypeError"))
          else (cx, Normal [Ev_text [u] [] false])
      end.

#[export] Instance handler_ts : Handler_ts :=
  {| handleBeforeDocument := handle;
     handleGeneralStuff := handle;
     handleFoundLT := handle;
     handleProcInst := handle;
     handleProcInstEnding := handle;
     handleSgmlDecl := handle;
     handleCdata := handle;
     handleCdataEnding := handle;
     handleCdataEnding2 := handle;
     handleComment := handle;
     handleCommentEnding := handle;
     handleCommentEnding2 := handle;
     handleDoctype := handle;
     handleStartTag := handle;
     handleStartTagStuff := handle;
     handleEmptyElementTag := handle;
     handleAttributeName := handle;
     handleAttributeNameSawWhite := handle;
     handleAttributeEqual := handle;
     handleAttributeValueStart := handle;
     handleAttributeValueEnd := handle;
     handleEndTag := handle;
     handleEndTagSawWhite := handle;
     handleAfterDocument := handle |}.

End Tidy.

(** ** A transition function that does not stop at its error *)
Section Restless.
Import Demo.



End Restless.



(** ** Reading on, and what a listener sees *)
Section Reading.
Context `{Handler_ts} `{Host_js}.

(** [readNext()] called [n] times in a row: the characters it returns, first
    to last, and the parser after the last call. *)
Fixpoint reads (n : nat) (this : ParserBase) : list jschar * ParserBase :=
  match n with
  | O => ([], this)
  | S n =>
      let '(c, this) := readNext this in
      let '(cs, this) := reads n this in
      (c :: cs, this)
  end.

(** The number of newlines of a text. *)
Definition newlines (cs : jsstring) : Z :=
  Z.of_nat (length (filter (fun c => c = LF) cs)).

(** Bytes that are ASCII characters. *)
Definition ascii (bytes : list Z) : Prop :=
  Forall (fun b => 0 <= b <= 0x7F) bytes.

(** The events a listener was called with, in the order of the calls. *)
Definition events_to `{EqDecision Listener} (listener : Listener)
    (tr : list SAXParser.effect) : list XMLParseEvent :=
  flat_map (fun eff =>
              match eff with
              | SAXParser.Call l event =>
                  if decide (l = listener) then [event] else []
              | SAXParser.Controller_error _ _ => []
              end) tr.

(** What a sequence of calls may do to the consumer of a parser with the
    listeners [ls] and the controller [k]: call a listener subscribed to
    the name of the event it is called with, and tell an error to the
    controller given to one of its [write] calls, or to [k]. *)
Definition allowed (ls : gmap string (list Listener))
    (k : option WritableStreamDefaultController)
    (calls : list SAXParser.call) (eff : SAXParser.effect) : Prop :=
  match eff with
  | SAXParser.Call l event => l ∈ default [] (ls !! event_name event)
  | SAXParser.Controller_error controller _ =>
      k = Some controller \/
      exists chunk, SAXParser.Write chunk (Some controller) ∈ calls
  end.

End Reading.

(** ** Tables that differ on [undefined] only *)
Section SameOnCharacters.
Context `{Context_ts}.

(** Two tables with the same states whose handlers do the same with every
    character; they may differ in what they do with [undefined]. *)
Definition same_on_characters (hs1 hs2 : gmap string XMLParseHandler) : Prop :=
  forall st,
    match hs1 !! st, hs2 !! st with
    | Some h1, Some h2 =>
        forall pos cx (c : Z), h1 pos cx (Some c) = h2 pos cx (Some c)
    | None, None => True
    | _, _ => False
    end.

End SameOnCharacters.

Section DemoUndefined.
Import Demo.

(** The transition function of the small instance, but for [undefined],
    where it throws. *)
Definition handle_defined : XMLParseHandler :=
  fun pos cx c =>
    match c with
    | None => (cx, Throw (Throw_Error "undefined"))
    | Some _ => handle pos cx c
    end.

End DemoUndefined.

(** * Properties *)

(** ** The cursor of [ParserBase] *)
Section Cursor.
Context `{Handler_ts}.

Lemma unread_length (this : ParserBase) :
  -1 <= _index this -> length (unread this) = remaining this.
Proof.
  intros Hi. unfold unread, remaining, js_length.
  rewrite length_drop. lia.
Qed.

Lemma hasNext_remaining (this : ParserBase) :
  hasNext this = true <-> (0 < remaining this)%nat.
Proof.
  unfold hasNext, remaining, js_length. rewrite Z.ltb_lt. lia.
Qed.

Lemma unread_exhausted (this : ParserBase) :
  -1 <= _index this -> hasNext this = false -> unread this = [].
Proof.
  intros Hi Hn. apply length_zero_iff_nil. rewrite unread_length by done.
  destruct (remaining this) eqn:E; [done|].
  assert (hasNext this = true) by (apply hasNext_remaining; lia).
  congruence.
Qed.

Lemma unread_next (this : ParserBase) :
  -1 <= _index this -> hasNext this = true ->
  exists c, (readNext this).1 = Some c /\
            unread this = c :: unread (readNext this).2.
Proof.
  intros Hi Hn. unfold hasNext, js_length in Hn. apply Z.ltb_lt in Hn.
  destruct (lookup_lt_is_Some_2 (_chunk this) (Z.to_nat (_index this + 1)))
    as [c Hc]; [lia|].
  exists c. split.
  - cbn. unfold js_index.
    destruct (Z.ltb_spec (_index this + 1) 0); [lia|done].
  - unfold unread. cbn.
    replace (Z.to_nat (_index this + 1 + 1))
      with (S (Z.to_nat (_index this + 1))) by lia.
    by apply drop_S.
Qed.

Lemma after_nothing (this : ParserBase) (o : completion ()) :
  after {| consumed := 0; position_after := position this;
           cx_after := cx this; emitted := []; outcome := o |} this = this.
Proof.
  destruct this. unfold after, position, cx. cbn. f_equal. lia.
Qed.

Lemma after_step (d : driven) (this : ParserBase) (cx' : XMLParseContext)
    (events : list XMLParseEvent) :
  after d (with_cx cx' (readNext this).2)
  = after {| consumed := S (consumed d);
             position_after := position_after d;
             cx_after := cx_after d;
             emitted := events ++ emitted d;
             outcome := outcome d |} this.
Proof. unfold after. cbn. f_equal. lia. Qed.

Lemma after_throw (this : ParserBase) (cx' : XMLParseContext) (e : exn) :
  with_cx cx' (readNext this).2
  = after {| consumed := 1;
             position_after := position (readNext this).2;
             cx_after := cx'; emitted := []; outcome := Throw e |} this.
Proof. unfold after. cbn. reflexivity. Qed.

End Cursor.

(** ** The two loops run the driver *)
Section Loops.
Context `{Handler_ts} `{Host_js}.

Lemma with_base_same (this : SAXParser.t) :
  SAXParser.with_base (SAXParser.base this) this = this.
Proof. by destruct this. Qed.

Lemma run_loop_drive (fuel : nat) :
  forall (this : SAXParser.t) (tr : list SAXParser.effect),
    -1 <= _index (SAXParser.base this) ->
    (length (unread (SAXParser.base this)) <= fuel)%nat ->
    let b := SAXParser.base this in
    let d := drive (handlers b) (unread b) (position b) (cx b) in
    SAXParser.run_loop fuel this tr
    = Some (SAXParser.with_base (after d b) this,
            tr ++ SAXParser.fireAll (emitted d) this,
            outcome d).
Proof.
  induction fuel as [|fuel IH]; intros this tr Hi Hfuel b d; subst b d.
  - destruct (unread (SAXParser.base this)) eqn:Eu; [|cbn in Hfuel; lia].
    cbn. destruct (hasNext (SAXParser.base this)) eqn:Hn.
    + destruct (unread_next _ Hi Hn) as (c & _ & Hc). congruence.
    + rewrite after_nothing, with_base_same, app_nil_r. done.
  - cbn [SAXParser.run_loop].
    destruct (hasNext (SAXParser.base this)) eqn:Hn.
    + destruct (unread_next _ Hi Hn) as (c & Hc & Hu).
      rewrite Hu. cbn [drive].
      destruct (handlers (SAXParser.base this) !! state (cx (SAXParser.base this)))
        as [handler|] eqn:Hh.
      * rewrite (surjective_pairing (readNext (SAXParser.base this))).
        change (position (readNext (SAXParser.base this)).2)
          with (advance (position (SAXParser.base this))
                  (readNext (SAXParser.base this)).1).
        rewrite Hc.
        change (cx (readNext (SAXParser.base this)).2)
          with (cx (SAXParser.base this)).
        destruct (handler _ _ _) as [cx' [events|e]].
        -- rewrite IH; cbn [SAXParser.base SAXParser.with_base].
           ++ change (position (with_cx cx' (readNext (SAXParser.base this)).2))
                with (advance (position (SAXParser.base this))
                        (readNext (SAXParser.base this)).1).
              rewrite Hc.
              change (unread (with_cx cx' (readNext (SAXParser.base this)).2))
                with (unread (readNext (SAXParser.base this)).2).
              change (cx (with_cx cx' (readNext (SAXParser.base this)).2)) with cx'.
              change (handlers (with_cx cx' (readNext (SAXParser.base this)).2))
                with (handlers (SAXParser.base this)).
              rewrite (after_step _ _ _ events). cbn [emitted outcome].
              unfold SAXParser.fireAll at 3. rewrite flat_map_app, app_assoc.
              reflexivity.
           ++ cbn. lia.
           ++ rewrite Hu in Hfuel. cbn [length] in Hfuel.
              change (unread (with_cx cx' (readNext (SAXParser.base this)).2))
                with (unread (readNext (SAXParser.base this)).2). lia.
        -- rewrite (after_throw _ _ e).
           change (position (readNext (SAXParser.base this)).2)
             with (advance (position (SAXParser.base this))
                  (readNext (SAXParser.base this)).1).
           rewrite Hc, app_nil_r. reflexivity.
      * rewrite after_nothing, with_base_same, app_nil_r. done.
    + rewrite (unread_exhausted _ Hi Hn). cbn.
      rewrite after_nothing, with_base_same, app_nil_r. done.
Qed.

Lemma parse_loop_drive (fuel : nat) :
  forall (this : ParserBase) (yielded : list PullParser.PullResult),
    -1 <= _index this ->
    (length (unread this) <= fuel)%nat ->
    let d := drive (handlers this) (unread this) (position this) (cx this) in
    PullParser.parse_loop fuel this yielded
    = Some (after d this,
            yielded ++ map PullParser.marshallEvent (emitted d),
            outcome d).
Proof.
  induction fuel as [|fuel IH]; intros this yielded Hi Hfuel d; subst d;
    cbn [PullParser.parse_loop];
    destruct (hasNext this) eqn:Hn;
    try (rewrite (unread_exhausted _ Hi Hn); cbn;
         by rewrite after_nothing, app_nil_r).
  - destruct (unread_next _ Hi Hn) as (c & _ & Hu).
    rewrite Hu in Hfuel. cbn in Hfuel. lia.
  - destruct (unread_next _ Hi Hn) as (c & Hc & Hu).
    rewrite Hu. cbn [drive].
    destruct (handlers this !! state (cx this)) as [handler|] eqn:Hh;
      [|by rewrite after_nothing, app_nil_r].
    rewrite (surjective_pairing (readNext this)).
    change (position (readNext this).2)
      with (advance (position this) (readNext this).1).
    rewrite Hc.
    change (cx (readNext this).2) with (cx this).
    destruct (handler _ _ _) as [cx' [events|e]].
    + rewrite IH.
      * change (position (with_cx cx' (readNext this).2))
          with (advance (position this) (readNext this).1).
        rewrite Hc, (after_step _ _ _ events). cbn [emitted outcome].
        by rewrite map_app, app_assoc.
      * cbn. lia.
      * rewrite Hu in Hfuel. cbn [length] in Hfuel.
        change (unread (with_cx cx' (readNext this).2))
          with (unread (readNext this).2). lia.
    + rewrite (after_throw _ _ e).
      change (position (readNext this).2)
        with (advance (position this) (readNext this).1).
      by rewrite Hc, app_nil_r.
Qed.

Lemma unread_set_chunk (chunk : jsstring) (this : ParserBase) :
  unread (set_chunk chunk this) = chunk.
Proof. reflexivity. Qed.

Lemma remaining_set_chunk (chunk : jsstring) (this : ParserBase) :
  remaining (set_chunk chunk this) = length chunk.
Proof. unfold remaining, js_length. cbn. lia. Qed.

End Loops.

(** ** One call, as a run of the driver *)
Section Calls.
Context `{Handler_ts} `{Host_js}.

Lemma fireAll_with_base (events : list XMLParseEvent) (b : ParserBase)
    (this : SAXParser.t) :
  SAXParser.fireAll events (SAXParser.with_base b this)
  = SAXParser.fireAll events this.
Proof. reflexivity. Qed.

Lemma fireAll_app (events more : list XMLParseEvent) (this : SAXParser.t) :
  SAXParser.fireAll (events ++ more) this
  = SAXParser.fireAll events this ++ SAXParser.fireAll more this.
Proof. apply flat_map_app. Qed.

Lemma fireAll_one (event : XMLParseEvent) (this : SAXParser.t) :
  SAXParser.fireAll [event] this = SAXParser.fireListeners event this.
Proof. unfold SAXParser.fireAll. cbn. apply app_nil_r. Qed.

Lemma run_drive (this : SAXParser.t) (tr : list SAXParser.effect) :
  -1 <= _index (SAXParser.base this) ->
  let b := SAXParser.base this in
  let d := drive (handlers b) (unread b) (position b) (cx b) in
  SAXParser.run this tr
  = Some (SAXParser.with_base (after d b) this,
          tr ++ effects d this, propagated d).
Proof.
  intros Hi b d. unfold SAXParser.run.
  rewrite run_loop_drive by (rewrite ?unread_length; done).
  fold b d. unfold effects, notified, signalled, propagated.
  destruct (outcome d) as [[]|[e|m]]; rewrite ?app_nil_r; try done.
  rewrite fireAll_app, fireAll_one, <- !app_assoc. reflexivity.
Qed.

(** [this.chunk = chunk; this.run()] *)
Lemma run_chunk (chunk : jsstring) (this : SAXParser.t)
    (tr : list SAXParser.effect) :
  let b := SAXParser.base this in
  let d := drive (handlers b) chunk (position b) (cx b) in
  SAXParser.run (SAXParser.with_base (set_chunk chunk b) this) tr
  = Some (SAXParser.with_base (after d (set_chunk chunk b)) this,
          tr ++ effects d this, propagated d).
Proof. intros b d. rewrite run_drive by (cbn; lia). reflexivity. Qed.

Lemma write_drive (chunk : list Z)
    (controller : option WritableStreamDefaultController)
    (this : SAXParser.t) (tr : list SAXParser.effect) :
  let b := SAXParser.base this in
  let text := TextDecoder.decode chunk in
  let d := drive (handlers b) text (position b) (cx b) in
  SAXParser.write chunk controller this tr
  = Some (SAXParser.with_controller None
            (SAXParser.with_base (after d (set_chunk text b)) this),
          tr ++ effects d (SAXParser.with_controller controller this),
          propagated d).
Proof.
  intros b text d. unfold SAXParser.write.
  pose proof (run_chunk text (SAXParser.with_controller controller this) tr)
    as Hrun.
  cbn zeta in Hrun.
  change (SAXParser.run _ tr) with
    (SAXParser.run
       (SAXParser.with_base
          (set_chunk text
             (SAXParser.base (SAXParser.with_controller controller this)))
          (SAXParser.with_controller controller this)) tr).
  rewrite Hrun. reflexivity.
Qed.

Lemma parse_drive (source : jsstring + list Z) (this : ParserBase) :
  let text := chunk_of source in
  let d := drive (handlers this) text (position this) (cx this) in
  PullParser.parse source this
  = Some (after d (set_chunk text this), yields d, propagated d).
Proof.
  intros text d. unfold PullParser.parse. fold (chunk_of source). fold text.
  rewrite parse_loop_drive by (rewrite ?unread_length; cbn; lia).
  rewrite unread_set_chunk.
  change (drive _ text _ _) with d. unfold yields, propagated.
  destruct (outcome d) as [[]|[e|m]]; cbn [app]; rewrite ?app_nil_r; done.
Qed.

End Calls.

Section Sequences.
Context `{Handler_ts} `{Host_js}.

Lemma perform_drive (c : SAXParser.call) (this : SAXParser.t)
    (tr : list SAXParser.effect) :
  let b := SAXParser.base this in
  let d := drive (handlers b) (text_of c) (position b) (cx b) in
  SAXParser.perform c this tr
  = Some (finished c d this, tr ++ effects d (during c this), propagated d).
Proof.
  intros b d. destruct c as [[source|source]|chunk controller]; cbn.
  - apply run_chunk.
  - apply write_drive.
  - apply write_drive.
Qed.

Lemma drive_app (hs : gmap string XMLParseHandler) (cs cs' : jsstring) :
  forall (pos : XMLPosition) (cx : XMLParseContext),
    let d := drive hs cs pos cx in
    drive hs (cs ++ cs') pos cx
    = match outcome d with
      | Normal _ =>
          let d' := drive hs cs' (position_after d) (cx_after d) in
          {| consumed := consumed d + consumed d';
             position_after := position_after d';
             cx_after := cx_after d';
             emitted := emitted d ++ emitted d';
             outcome := outcome d' |}
      | Throw _ => d
      end.
Proof.
  induction cs as [|c cs IH]; intros pos cx.
  - cbn. by destruct (drive hs cs' pos cx).
  - cbn. destruct (hs !! state cx) as [handler|]; [|done].
    destruct (handler _ _ _) as [cx' [events|e]]; [|done].
    rewrite IH. cbn zeta.
    destruct (outcome (drive hs cs _ cx')) eqn:Ho; cbn; rewrite ?Ho.
    + by rewrite app_assoc.
    + done.
Qed.

Lemma drive_cons (hs : gmap string XMLParseHandler) (c : Z) (cs : jsstring)
    (pos : XMLPosition) (cx : XMLParseContext) :
  drive hs (c :: cs) pos cx
  = match hs !! state cx with
    | None =>
        {| consumed := 0; position_after := pos; cx_after := cx;
           emitted := []; outcome := Throw (handler_not_found (state cx)) |}
    | Some handler =>
        let pos := advance pos (Some c) in
        let '(cx, r) := handler pos cx (Some c) in
        match r with
        | Normal events =>
            let d := drive hs cs pos cx in
            {| consumed := S (consumed d);
               position_after := position_after d;
               cx_after := cx_after d;
               emitted := events ++ emitted d;
               outcome := outcome d |}
        | Throw e =>
            {| consumed := 1; position_after := pos; cx_after := cx;
               emitted := []; outcome := Throw e |}
        end
    end.
Proof. reflexivity. Qed.


End Sequences.

(** ** The dead Context under the discipline of the spec *)
Section Dead.
Context `{Handler_ts} `{!Errored_ts} `{Host_js}.
Variable hs : gmap string XMLParseHandler.
Hypothesis discipline : dead_context_discipline hs.

Lemma drive_dead (cs : jsstring) :
  forall (pos : XMLPosition) (cx : XMLParseContext),
    dead hs cx ->
    let d := drive hs cs pos cx in
    emitted d = [] /\ outcome d = Normal () /\ dead hs (cx_after d).
Proof.
  induction cs as [|c cs IH]; intros pos cx [He [handler Hh]]; cbn zeta.
  - repeat split; eauto.
  - rewrite drive_cons, Hh. cbn zeta.
    destruct (errored_is_inert hs discipline handler
                (advance pos (Some c)) cx (Some c) Hh He)
      as (cx' & -> & He' & Hs').
    cbn. by apply IH.
Qed.

Lemma drive_throw_dead (cs : jsstring) :
  forall (pos : XMLPosition) (cx : XMLParseContext) (e : XMLParseError),
    outcome (drive hs cs pos cx) = Throw (Throw_XMLParseError e) ->
    dead hs (cx_after (drive hs cs pos cx)).
Proof.
  induction cs as [|c cs IH]; intros pos cx e; [done|].
  rewrite drive_cons.
  destruct (hs !! state cx) as [handler|] eqn:Hh; [|done]. cbn zeta.
  destruct (handler _ _ _) as [cx' [events|e']] eqn:Hr; cbn.
  - apply IH.
  - intros [= ->]. eapply throw_sets_errored; eauto.
Qed.

End Dead.

Section DeadCalls.
Context `{Handler_ts} `{!Errored_ts} `{Host_js}.

Lemma effects_dead (hs : gmap string XMLParseHandler) (d : driven)
    (this : SAXParser.t) :
  emitted d = [] -> outcome d = Normal () ->
  effects d this = [] /\ yields d = [] /\ propagated d = Normal ().
Proof.
  intros He Ho. unfold effects, yields, notified, signalled, propagated.
  rewrite Ho, He. done.
Qed.

Lemma finished_base (c : SAXParser.call) (d : driven) (this : SAXParser.t) :
  SAXParser.base (finished c d this)
  = after d (set_chunk (text_of c) (SAXParser.base this)).
Proof. by destruct c as [[?|?]|? ?]. Qed.

Lemma finished_listeners (c : SAXParser.call) (d : driven)
    (this : SAXParser.t) :
  SAXParser._listeners (finished c d this) = SAXParser._listeners this.
Proof. by destruct c as [[?|?]|? ?]. Qed.

Lemma perform_all_dead (hs : gmap string XMLParseHandler)
    (calls : list SAXParser.call) :
  dead_context_discipline hs ->
  forall (this : SAXParser.t) (tr : list SAXParser.effect),
    handlers (SAXParser.base this) = hs ->
    dead hs (cx (SAXParser.base this)) ->
    exists this',
      SAXParser.perform_all calls this tr = Some (this', tr, Normal ()) /\
      handlers (SAXParser.base this') = hs /\
      dead hs (cx (SAXParser.base this')).
Proof.
  intros Hd. induction calls as [|c calls IH]; intros this tr Hhs Hdead.
  - exists this. done.
  - cbn [SAXParser.perform_all]. rewrite perform_drive. cbn zeta.
    rewrite Hhs.
    destruct (drive_dead hs Hd (text_of c) (position (SAXParser.base this))
                (cx (SAXParser.base this)) Hdead) as (He & Ho & Hdead').
    destruct (effects_dead hs _ (during c this) He Ho) as (-> & _ & ->).
    rewrite app_nil_r. apply IH.
    + by rewrite finished_base.
    + by rewrite finished_base.
Qed.

Lemma parse_all_dead (hs : gmap string XMLParseHandler)
    (sources : list (jsstring + list Z)) :
  dead_context_discipline hs ->
  forall this : ParserBase,
    handlers this = hs ->
    dead hs (cx this) ->
    exists this',
      PullParser.parse_all sources this = Some (this', [], Normal ()) /\
      handlers this' = hs /\ dead hs (cx this').
Proof.
  intros Hd. induction sources as [|source sources IH]; intros this Hhs Hdead.
  - exists this. done.
  - cbn [PullParser.parse_all]. rewrite parse_drive. cbn zeta. rewrite Hhs.
    destruct (drive_dead hs Hd (chunk_of source) (position this) (cx this)
                Hdead) as (He & Ho & Hdead').
    destruct (effects_dead hs _ SAXParser.new He Ho) as (_ & -> & ->).
    destruct (IH (after (drive hs (chunk_of source) (position this) (cx this))
                    (set_chunk (chunk_of source) this)))
      as (this' & -> & Hhs' & Hd'); [done|done|].
    exists this'. done.
Qed.

End DeadCalls.

(** ** Chunks against the whole text *)
Section Chunks.
Context `{Handler_ts} `{!Errored_ts} `{Host_js}.

Lemma error_is_final_rest (hs : gmap string XMLParseHandler)
    (chunk rest : jsstring) (pos : XMLPosition) (cx : XMLParseContext) :
  let d := drive hs chunk pos cx in
  outcome d = Normal () ->
  error_is_final hs (chunk ++ rest) pos cx ->
  error_is_final hs rest (position_after d) (cx_after d).
Proof.
  intros d Ho [Hd|Hne]; [by left|right].
  intros e He. apply (Hne e). rewrite drive_app. fold d. by rewrite Ho.
Qed.

Lemma error_is_final_dead (hs : gmap string XMLParseHandler)
    (chunk rest : jsstring) (pos : XMLPosition) (cx : XMLParseContext)
    (e : XMLParseError) :
  let d := drive hs chunk pos cx in
  outcome d = Throw (Throw_XMLParseError e) ->
  error_is_final hs (chunk ++ rest) pos cx ->
  dead_context_discipline hs /\ dead hs (cx_after d).
Proof.
  intros d Ho [Hd|Hne].
  - split; [done|]. by apply (drive_throw_dead hs Hd chunk pos cx e).
  - destruct (Hne e). rewrite drive_app. fold d. by rewrite Ho.
Qed.

Lemma effects_app (d1 d' d : driven) (this this1 : SAXParser.t) :
  outcome d1 = Normal () ->
  emitted d = emitted d1 ++ emitted d' ->
  outcome d = outcome d' ->
  SAXParser._listeners this1 = SAXParser._listeners this ->
  SAXParser._controller this1 = SAXParser._controller this ->
  effects d1 this ++ effects d' this1 = effects d this.
Proof.
  intros Ho1 He Ho Hl Hc.
  unfold effects, notified, signalled, SAXParser.controller_error,
    SAXParser.fireAll, SAXParser.fireListeners.
  rewrite Ho1, He, Ho, Hl, Hc, app_nil_r.
  destruct (outcome d') as [[]|[e|m]];
    rewrite ?flat_map_app, <- ?app_assoc; done.
Qed.

Lemma yields_app (d1 d' d : driven) :
  outcome d1 = Normal () ->
  emitted d = emitted d1 ++ emitted d' ->
  outcome d = outcome d' ->
  yields d1 ++ yields d' = yields d.
Proof.
  intros Ho1 He Ho. unfold yields.
  rewrite Ho1, He, Ho, app_nil_r, map_app, <- app_assoc. done.
Qed.

Lemma perform_all_concat (chunks : list jsstring) :
  forall (this : SAXParser.t) (tr : list SAXParser.effect),
    let b := SAXParser.base this in
    let d := drive (handlers b) (concat chunks) (position b) (cx b) in
    error_is_final (handlers b) (concat chunks) (position b) (cx b) ->
    exists this',
      SAXParser.perform_all
        (map (fun chunk => SAXParser.Parse (inl chunk)) chunks) this tr
      = Some (this', tr ++ effects d this, propagated d).
Proof.
  induction chunks as [|chunk chunks IH]; intros this tr b d Hfinal.
  - exists this. cbn. by rewrite app_nil_r.
  - cbn [map SAXParser.perform_all]. rewrite perform_drive. cbn zeta.
    fold b. cbn [text_of chunk_of during].
    set (d1 := drive (handlers b) chunk (position b) (cx b)).
    set (this1 := finished (SAXParser.Parse (inl chunk)) d1 this).
    assert (Hd : d = match outcome d1 with
                     | Normal _ =>
                         let d' := drive (handlers b) (concat chunks)
                                     (position_after d1) (cx_after d1) in
                         {| consumed := consumed d1 + consumed d';
                            position_after := position_after d';
                            cx_after := cx_after d';
                            emitted := emitted d1 ++ emitted d';
                            outcome := outcome d' |}
                     | Throw _ => d1
                     end) by apply drive_app.
    destruct (outcome d1) as [[]|[e|m]] eqn:Ho1.
    + unfold propagated at 1. rewrite Ho1.
      destruct (IH this1 (tr ++ effects d1 this)) as (this' & ->).
      { apply (error_is_final_rest (handlers b) chunk (concat chunks)); done. }
      exists this'. f_equal. f_equal; [f_equal|].
      * rewrite <- app_assoc. f_equal.
        apply effects_app; rewrite ?Hd; done.
      * rewrite Hd. reflexivity.
    + unfold propagated at 1. rewrite Ho1.
      destruct (error_is_final_dead (handlers b) chunk (concat chunks)
                  (position b) (cx b) e Ho1 Hfinal) as [Hdisc Hdead].
      destruct (perform_all_dead (handlers b)
                  (map (fun chunk => SAXParser.Parse (inl chunk)) chunks)
                  Hdisc this1 (tr ++ effects d1 this))
        as (this' & -> & _); [done|done|].
      exists this'. rewrite Hd. unfold propagated. by rewrite Ho1.
    + unfold propagated at 1. rewrite Ho1.
      exists this1. rewrite Hd. unfold propagated. by rewrite Ho1.
Qed.

Lemma parse_all_concat (chunks : list jsstring) :
  forall this : ParserBase,
    let d := drive (handlers this) (concat chunks) (position this) (cx this) in
    error_is_final (handlers this) (concat chunks) (position this) (cx this) ->
    exists this',
      PullParser.parse_all (map inl chunks) this
      = Some (this', yields d, propagated d).
Proof.
  induction chunks as [|chunk chunks IH]; intros this d Hfinal.
  - exists this. done.
  - cbn [map PullParser.parse_all]. rewrite parse_drive. cbn zeta.
    cbn [chunk_of].
    set (d1 := drive (handlers this) chunk (position this) (cx this)).
    set (this1 := after d1 (set_chunk chunk this)).
    assert (Hd : d = match outcome d1 with
                     | Normal _ =>
                         let d' := drive (handlers this) (concat chunks)
                                     (position_after d1) (cx_after d1) in
                         {| consumed := consumed d1 + consumed d';
                            position_after := position_after d';
                            cx_after := cx_after d';
                            emitted := emitted d1 ++ emitted d';
                            outcome := outcome d' |}
                     | Throw _ => d1
                     end) by apply drive_app.
    destruct (outcome d1) as [[]|[e|m]] eqn:Ho1.
    + unfold propagated at 1. rewrite Ho1.
      destruct (IH this1) as (this' & ->).
      { apply (error_is_final_rest (handlers this) chunk (concat chunks));
          done. }
      exists this'. f_equal. f_equal; [f_equal|].
      * apply yields_app; rewrite ?Hd; done.
      * rewrite Hd. reflexivity.
    + unfold propagated at 1. rewrite Ho1.
      destruct (error_is_final_dead (handlers this) chunk (concat chunks)
                  (position this) (cx this) e Ho1 Hfinal) as [Hdisc Hdead].
      destruct (parse_all_dead (handlers this) (map inl chunks) Hdisc this1)
        as (this' & -> & _); [done|done|].
      exists this'. rewrite Hd, app_nil_r. unfold propagated. by rewrite Ho1.
    + unfold propagated at 1. rewrite Ho1.
      exists this1. rewrite Hd. unfold propagated. by rewrite Ho1.
Qed.

End Chunks.

(** ** The table of handlers *)
Section Table.
Context `{Handler_ts} `{Host_js}.

Lemma foldl_appendHandler (regs : list (string * XMLParseHandler)) :
  forall this : ParserBase,
    handlers (foldl (fun this r => appendHandler r.1 r.2 this) this regs)
    = list_to_map (reverse regs) ∪ handlers this.
Proof.
  induction regs as [|[st h] regs IH]; intros this; cbn [foldl].
  - rewrite reverse_nil, list_to_map_nil. by rewrite (left_id_L ∅ (∪)).
  - rewrite IH, reverse_cons, list_to_map_app. cbn.
    rewrite <- (assoc_L (∪)). f_equal.
    by rewrite insert_union_singleton_l, insert_empty.
Qed.

Lemma constructor_handlers :
  handlers constructor = list_to_map (reverse registrations).
Proof.
  unfold constructor. rewrite foldl_appendHandler.
  apply (right_id_L ∅ (∪)).
Qed.

Lemma registered_states_NoDup : NoDup registered_states.
Proof. apply (bool_decide_unpack _). vm_compute. reflexivity. Qed.

Lemma registrations_reverse_NoDup : NoDup (reverse registrations).*1.
Proof.
  rewrite fmap_reverse, reverse_Permutation. apply registered_states_NoDup.
Qed.

Lemma constructor_lookup (st : string) (handler : XMLParseHandler) :
  handlers constructor !! st = Some handler <-> (st, handler) ∈ registrations.
Proof.
  rewrite constructor_handlers, <- elem_of_list_to_map, elem_of_reverse; [done|].
  apply registrations_reverse_NoDup.
Qed.

Lemma constructor_registered (st : string) :
  is_Some (handlers constructor !! st) <-> st ∈ registered_states.
Proof.
  unfold registered_states. rewrite list_elem_of_fmap. split.
  - intros [handler Hh]. exists (st, handler). split; [done|].
    by apply constructor_lookup.
  - intros ([st' handler] & -> & Hin). exists handler.
    by apply constructor_lookup.
Qed.

Lemma constructor_size : size (handlers constructor) = 24%nat.
Proof.
  rewrite constructor_handlers, map_size_list_to_map, length_reverse; [done|].
  apply registrations_reverse_NoDup.
Qed.

Lemma registered_states_STATES : registered_states = STATES.
Proof. reflexivity. Qed.

Lemma constructor_cx : cx constructor = new_XMLParseContext.
Proof. reflexivity. Qed.

Lemma constructor_STATES (st : string) :
  is_Some (handlers constructor !! st) <-> st ∈ STATES.
Proof. rewrite <- registered_states_STATES. apply constructor_registered. Qed.

Lemma drive_closed (hs : gmap string XMLParseHandler) :
  states_closed hs ->
  (forall st, st ∈ STATES -> is_Some (hs !! st)) ->
  forall (cs : jsstring) (pos : XMLPosition) (cx : XMLParseContext),
    state cx ∈ STATES ->
    always_handled hs cs pos cx = true /\
    state (cx_after (drive hs cs pos cx)) ∈ STATES.
Proof.
  intros [_ Hstep] Hsome. induction cs as [|c cs IH]; intros pos cx Hin; [done|].
  rewrite drive_cons. cbn [always_handled].
  destruct (Hsome _ Hin) as [handler Hh]. rewrite Hh. cbn zeta.
  destruct (handler _ _ _) as [cx' [events|e]] eqn:Hr; cbn.
  - apply IH. exact (Hstep _ _ _ _ _ _ Hh Hr).
  - split; [done|]. exact (Hstep _ _ _ _ _ _ Hh Hr).
Qed.

(** When the loop does take the missing-handler branch, it ends there:
    the state it is in has no handler, and the driver's [Error] is the
    outcome. *)
Lemma always_handled_false (hs : gmap string XMLParseHandler) (cs : jsstring) :
  forall (pos : XMLPosition) (cx : XMLParseContext),
    always_handled hs cs pos cx = false ->
    let d := drive hs cs pos cx in
    hs !! state (cx_after d) = None /\
    outcome d = Throw (handler_not_found (state (cx_after d))) /\
    (consumed d < length cs)%nat.
Proof.
  induction cs as [|c cs IH]; intros pos cx; [done|].
  rewrite drive_cons. cbn [always_handled].
  destruct (hs !! state cx) as [handler|] eqn:Hh.
  - cbn zeta. destruct (handler _ _ _) as [cx' [events|e]]; [|done].
    intros Hf. destruct (IH _ _ Hf) as (Hnone & Hout & Hlt). cbn.
    split; [done|]. split; [done|]. lia.
  - intros _. cbn. split; [done|]. split; [done|]. lia.
Qed.

Lemma sax_reachable_closed (this : SAXParser.t) :
  states_closed (handlers constructor) ->
  sax_reachable this ->
  handlers (SAXParser.base this) = handlers constructor /\
  state (cx (SAXParser.base this)) ∈ STATES.
Proof.
  intros Hc.
  induction 1 as [|event listener this _ IH|c this this' tr tr' r _ IH Hp].
  - split; [done|]. cbn [SAXParser.new SAXParser.base].
    rewrite constructor_cx. apply Hc.
  - exact IH.
  - rewrite perform_drive in Hp. injection Hp as <- _ _.
    rewrite finished_base. destruct IH as [Hhs Hin]. split; [exact Hhs|].
    cbn [after cx _cx]. rewrite Hhs.
    apply drive_closed; [done|apply constructor_STATES|done].
Qed.

Lemma pull_reachable_closed (this : ParserBase) :
  states_closed (handlers constructor) ->
  pull_reachable this ->
  handlers this = handlers constructor /\ state (cx this) ∈ STATES.
Proof.
  intros Hc.
  induction 1 as [|source this this' yielded r _ IH Hp].
  - split; [done|]. rewrite constructor_cx. apply Hc.
  - rewrite parse_drive in Hp. injection Hp as <- _ _.
    destruct IH as [Hhs Hin]. split; [exact Hhs|].
    cbn [after cx _cx]. rewrite Hhs.
    apply drive_closed; [done|apply constructor_STATES|done].
Qed.

(** C8, as the code has it.  The constructor registers 24 transition
    functions, one for each of the 24 states of the table in the comment
    of [ParserBase], each state once, and the table has no other entry.
    Every state the Context of a parser can be in then has a handler, and
    the missing-handler branch of the driver is not taken: for every
    parser a consumer can have (a new one, after any subscriptions and any
    calls, however they ended) and every input of the next call, of the
    [SAXParser] and of the [PullParser].  The Contexts and the transition
    functions are taken to keep to the states of the table. *)
Theorem handler_table_has_24_states :
  states_closed (handlers constructor) ->
  length registrations = 24%nat /\
  registered_states = STATES /\
  NoDup STATES /\
  size (handlers constructor) = 24%nat /\
  (forall st, is_Some (handlers constructor !! st) <-> st ∈ STATES) /\
  (forall this : SAXParser.t,
     sax_reachable this ->
     let b := SAXParser.base this in
     is_Some (handlers b !! state (cx b)) /\
     forall c : SAXParser.call,
       always_handled (handlers b) (text_of c) (position b) (cx b) = true) /\
  (forall this : ParserBase,
     pull_reachable this ->
     is_Some (handlers this !! state (cx this)) /\
     forall source : jsstring + list Z,
       always_handled (handlers this) (chunk_of source) (position this)
         (cx this) = true).
Proof.
  intros Hc.
  split; [reflexivity|]. split; [apply registered_states_STATES|].
  split; [rewrite <- registered_states_STATES; apply registered_states_NoDup|].
  split; [apply constructor_size|]. split; [apply constructor_STATES|].
  split.
  - intros this Hr b.
    destruct (sax_reachable_closed this Hc Hr) as [Hhs Hin]. subst b.
    rewrite Hhs. split; [by apply constructor_STATES|].
    intros c. apply drive_closed; [done|apply constructor_STATES|done].
  - intros this Hr.
    destruct (pull_reachable_closed this Hc Hr) as [Hhs Hin].
    rewrite Hhs. split; [by apply constructor_STATES|].
    intros source. apply drive_closed; [done|apply constructor_STATES|done].
Qed.

End Table.

(** C8, as the spec has it, fails: the table has 24 entries, not 25. *)
Lemma handler_table_has_not_25_states :
  size (handlers (constructor (H0 := Demo.handler_ts))) = 24%nat /\
  size (handlers (constructor (H0 := Demo.handler_ts))) <> 25%nat.
Proof. rewrite constructor_size. split; [reflexivity|discriminate]. Qed.

(** ** The chunk setter and the position *)
Section Position.
Context `{Handler_ts} `{Host_js}.

(** C6.  Assigning a chunk replaces the chunk buffer and puts the cursor at
    -1; the context (hence the FSM state, the buffers and the stacks it
    holds), the handler table and the position stay as they were, and so do
    the listeners and the controller of a [SAXParser]. *)
Theorem chunk_setter_frame (chunk : jsstring) :
  (forall this : ParserBase,
     let this' := set_chunk chunk this in
     _chunk this' = chunk /\
     _index this' = -1 /\
     cx this' = cx this /\
     state (cx this') = state (cx this) /\
     handlers this' = handlers this /\
     position this' = position this) /\
  (forall this : SAXParser.t,
     let this' := SAXParser.with_base (set_chunk chunk (SAXParser.base this))
                    this in
     SAXParser._listeners this' = SAXParser._listeners this /\
     SAXParser._controller this' = SAXParser._controller this).
Proof. split; intros this; cbn; repeat split. Qed.

Lemma advance_ok (pos : XMLPosition) (c : jschar) :
  position_ok pos -> position_ok (advance pos c).
Proof.
  unfold position_ok, advance. intros [Hl Hc].
  destruct (is_LF c); cbn; lia.
Qed.

Lemma drive_position (hs : gmap string XMLParseHandler) (cs : jsstring) :
  forall (pos : XMLPosition) (cx : XMLParseContext),
    let d := drive hs cs pos cx in
    position_after d = foldl advance pos (Some <$> take (consumed d) cs).
Proof.
  induction cs as [|c cs IH]; intros pos cx; cbn zeta; [done|].
  rewrite drive_cons.
  destruct (hs !! state cx) as [handler|]; [|done]. cbn zeta.
  destruct (handler _ _ _) as [cx' [events|e]]; cbn; [|done].
  apply IH.
Qed.

Lemma foldl_advance_ok (cs : list jschar) :
  forall pos, position_ok pos -> position_ok (foldl advance pos cs).
Proof.
  induction cs as [|c cs IH]; intros pos Hp; cbn; [done|].
  by apply IH, advance_ok.
Qed.

(** C5.  A parser starts at line 1, column 0.  [readNext] moves the cursor
    by one, returns the character there, and updates the position once:
    after a newline the line is one more and the column 0, after any other
    character the column is one more.  In both loops the handler is called
    with the position already updated for the character it is given.  The
    position after a call is the one before it advanced once for each
    character read, and [line >= 1], [column >= 0] hold initially and are
    kept by [readNext], by the chunk setter and by every call. *)
Theorem position_tracking :
  position constructor = {| line := 1; column := 0 |} /\
  (forall this : ParserBase,
     let c := (readNext this).1 in
     let this' := (readNext this).2 in
     c = js_index (_chunk this) (_index this + 1) /\
     _index this' = _index this + 1 /\
     _chunk this' = _chunk this /\
     cx this' = cx this /\
     position this'
     = if is_LF c
       then {| line := line (position this) + 1; column := 0 |}
       else {| line := line (position this);
               column := column (position this) + 1 |}) /\
  (forall (fuel : nat) (this : ParserBase) yielded handler,
     hasNext this = true ->
     handlers this !! state (cx this) = Some handler ->
     PullParser.parse_loop (S fuel) this yielded
     = match handler (advance (position this) (readNext this).1)
               (cx this) (readNext this).1 with
       | (cx', Normal events) =>
           PullParser.parse_loop fuel (with_cx cx' (readNext this).2)
             (yielded ++ map PullParser.marshallEvent events)
       | (cx', Throw e) =>
           Some (with_cx cx' (readNext this).2, yielded, Throw e)
       end) /\
  (forall (fuel : nat) (this : SAXParser.t) tr handler,
     hasNext (SAXParser.base this) = true ->
     handlers (SAXParser.base this) !! state (cx (SAXParser.base this))
     = Some handler ->
     let b := SAXParser.base this in
     SAXParser.run_loop (S fuel) this tr
     = match handler (advance (position b) (readNext b).1)
               (cx b) (readNext b).1 with
       | (cx', Normal events) =>
           SAXParser.run_loop fuel
             (SAXParser.with_base (with_cx cx' (readNext b).2) this)
             (tr ++ SAXParser.fireAll events this)
       | (cx', Throw e) =>
           Some (SAXParser.with_base (with_cx cx' (readNext b).2) this,
                 tr, Throw e)
       end) /\
  (forall (c : SAXParser.call) (this this' : SAXParser.t) tr tr' r,
     SAXParser.perform c this tr = Some (this', tr', r) ->
     exists n : nat,
       _index (SAXParser.base this') = -1 + Z.of_nat n /\
       position (SAXParser.base this')
       = foldl advance (position (SAXParser.base this))
           (Some <$> take n (text_of c))) /\
  (forall (source : jsstring + list Z) (this this' : ParserBase) yielded r,
     PullParser.parse source this = Some (this', yielded, r) ->
     exists n : nat,
       _index this' = -1 + Z.of_nat n /\
       position this'
       = foldl advance (position this) (Some <$> take n (chunk_of source))) /\
  position_ok (position constructor) /\
  (forall this : ParserBase,
     position_ok (position this) ->
     position_ok (position (readNext this).2) /\
     forall chunk, position_ok (position (set_chunk chunk this))) /\
  (forall (c : SAXParser.call) (this this' : SAXParser.t) tr tr' r,
     position_ok (position (SAXParser.base this)) ->
     SAXParser.perform c this tr = Some (this', tr', r) ->
     position_ok (position (SAXParser.base this'))) /\
  (forall (source : jsstring + list Z) (this this' : ParserBase) yielded r,
     position_ok (position this) ->
     PullParser.parse source this = Some (this', yielded, r) ->
     position_ok (position this')).
Proof.
  split; [reflexivity|].
  split; [intros this; cbn; repeat split|].
  split.
  { intros fuel this yielded handler Hn Hh. cbn [PullParser.parse_loop].
    rewrite Hn, Hh. reflexivity. }
  split.
  { intros fuel this tr handler Hn Hh b. cbn [SAXParser.run_loop].
    rewrite Hn, Hh. reflexivity. }
  split.
  { intros c this this' tr tr' r. rewrite perform_drive. intros [= <- _ _].
    eexists. rewrite finished_base. split; [reflexivity|]. apply drive_position. }
  split.
  { intros source this this' yielded r. rewrite parse_drive. intros [= <- _ _].
    eexists. split; [reflexivity|]. apply drive_position. }
  split; [unfold position_ok; cbn; lia|].
  split.
  { intros this Hp. split; [by apply advance_ok|done]. }
  split.
  { intros c this this' tr tr' r Hp. rewrite perform_drive. intros [= <- _ _].
    rewrite finished_base. unfold position, after. cbn [_position].
    rewrite drive_position. by apply foldl_advance_ok. }
  intros source this this' yielded r Hp. rewrite parse_drive. intros [= <- _ _].
  unfold position, after. cbn [_position].
  rewrite drive_position. by apply foldl_advance_ok.
Qed.

End Position.

(** ** Listeners *)
Section Listeners.
Context `{Handler_ts} `{Host_js}.




End Listeners.

(** ** Errors and other exceptions *)
Section Errors.
Context `{Handler_ts} `{Host_js}.

Lemma text_of_source (c : SAXParser.call) : chunk_of (source_of c) = text_of c.
Proof. by destruct c. Qed.

Lemma fireAll_during (events : list XMLParseEvent) (c : SAXParser.call)
    (this : SAXParser.t) :
  SAXParser.fireAll events (during c this) = SAXParser.fireAll events this.
Proof. by destruct c as [[?|?]|? ?]. Qed.

Lemma drive_emits_no_error (hs : gmap string XMLParseHandler) (cs : jsstring) :
  handlers_throw_errors hs ->
  forall (pos : XMLPosition) (cx : XMLParseContext),
    Forall (fun event => is_error_event event = false)
      (emitted (drive hs cs pos cx)).
Proof.
  intros Hthrow. induction cs as [|c cs IH]; intros pos cx; [constructor|].
  rewrite drive_cons.
  destruct (hs !! state cx) as [handler|] eqn:Hh; [|constructor]. cbn zeta.
  destruct (handler _ _ _) as [cx' [events|e]] eqn:Hr; cbn; [|constructor].
  apply Forall_app. split; [|apply IH].
  eapply Forall_impl; [exact (Hthrow _ _ _ _ _ _ Hh Hr)|].
  intros event Hne. unfold is_error_event. by apply String.eqb_neq.
Qed.

Lemma filter_none {A : Type} (p : A -> bool) (l : list A) :
  Forall (fun x => p x = false) l -> List.filter p l = [].
Proof.
  induction 1 as [|x l Hx _ IH]; cbn; [done|]. by rewrite Hx.
Qed.

Lemma marshallEvent_name (event : XMLParseEvent) :
  PullParser.name (PullParser.marshallEvent event) = event_name event.
Proof. by destruct event. Qed.

Lemma filter_map_marshallEvent (events : list XMLParseEvent) :
  List.filter is_error_result (map PullParser.marshallEvent events)
  = map PullParser.marshallEvent (List.filter is_error_event events).
Proof.
  induction events as [|event events IH]; cbn; [done|].
  unfold is_error_result at 1, is_error_event at 1.
  rewrite marshallEvent_name.
  destruct (event_name event =? "error")%string; cbn; by rewrite IH.
Qed.


Lemma errors_told_app (tr tr' : list SAXParser.effect) :
  errors_told (tr ++ tr') = errors_told tr ++ errors_told tr'.
Proof. apply flat_map_app. Qed.

Lemma errors_told_fireListeners (event : XMLParseEvent) (this : SAXParser.t) :
  is_error_event event = false ->
  errors_told (SAXParser.fireListeners event this) = [].
Proof.
  intros Hne. unfold SAXParser.fireListeners.
  induction (default [] (SAXParser._listeners this !! event_name event))
    as [|listener ls IH]; [done|].
  unfold errors_told in *. cbn [map flat_map]. rewrite IH.
  by destruct event.
Qed.

Lemma errors_told_fireAll (events : list XMLParseEvent) (this : SAXParser.t) :
  Forall (fun event => is_error_event event = false) events ->
  errors_told (SAXParser.fireAll events this) = [].
Proof.
  induction 1 as [|event events Hne _ IH]; [done|].
  change (SAXParser.fireAll (event :: events) this)
    with (SAXParser.fireListeners event this ++ SAXParser.fireAll events this).
  by rewrite errors_told_app, IH, errors_told_fireListeners.
Qed.

Lemma errors_told_error (e : XMLParseError) (ls : list Listener) :
  errors_told (map (fun listener => SAXParser.Call listener (Ev_error e)) ls)
  = repeat e (length ls).
Proof. induction ls as [|listener ls IH]; [done|]. cbn. by f_equal. Qed.

Lemma errors_told_controller (e : XMLParseError) (this : SAXParser.t) :
  errors_told (SAXParser.controller_error e this)
  = repeat e (length (SAXParser.controller_error e this)).
Proof. unfold SAXParser.controller_error. by destruct (SAXParser._controller this). Qed.

(** C2, as the code has it.  When a handler throws an [XMLParseError] on
    the input of a call, the call returns normally.  The [SAXParser] has
    dispatched the handlers' events and then one ['error'] event: it has
    called each listener subscribed to ['error'], once for each
    subscription, with the error thrown, and the controller, if [write]
    was given one.  That is all the consumer is told of the error: as many
    times as there are subscriptions to ['error'] and a controller, and so
    not at all when there is neither.  The [PullParser] has yielded the
    results of the handlers' events and then one result named ['error'],
    which carries the error.  Handlers are taken to report errors by
    throwing, not by returning an event named ['error']. *)
Theorem one_error_notification (c : SAXParser.call) (this : SAXParser.t)
    (tr : list SAXParser.effect) (e : XMLParseError) :
  let b := SAXParser.base this in
  let d := drive (handlers b) (text_of c) (position b) (cx b) in
  let listeners := default [] (SAXParser._listeners this !! "error") in
  let told :=
    SAXParser.fireAll (emitted d) this
      ++ map (fun listener => SAXParser.Call listener (Ev_error e)) listeners
      ++ SAXParser.controller_error e (during c this) in
  handlers_throw_errors (handlers b) ->
  outcome d = Throw (Throw_XMLParseError e) ->
  (exists this',
     SAXParser.perform c this tr = Some (this', tr ++ told, Normal ())) /\
  errors_told told
  = repeat e (length listeners
              + length (SAXParser.controller_error e (during c this))) /\
  (errors_told told = [] <->
   listeners = [] /\ SAXParser._controller (during c this) = None) /\
  notified d = emitted d ++ [Ev_error e] /\
  List.filter is_error_event (notified d) = [Ev_error e] /\
  (exists b',
     PullParser.parse (source_of c) b
     = Some (b',
             map PullParser.marshallEvent (emitted d)
               ++ [PullParser.error_result e],
             Normal ())) /\
  List.filter is_error_result
    (map PullParser.marshallEvent (emitted d) ++ [PullParser.error_result e])
  = [PullParser.error_result e].
Proof.
  intros b d listeners told Hthrow Ho.
  pose proof (drive_emits_no_error _ (text_of c) Hthrow (position b) (cx b))
    as Hnone.
  fold d in Hnone.
  assert (Hn : notified d = emitted d ++ [Ev_error e])
    by (unfold notified; by rewrite Ho).
  assert (Ht : errors_told told
               = repeat e (length listeners
                           + length (SAXParser.controller_error e
                                       (during c this)))).
  { unfold told.
    rewrite !errors_told_app, (errors_told_fireAll _ _ Hnone),
      errors_told_error, errors_told_controller.
    cbn [app]. by rewrite repeat_app. }
  split; [|split; [|split; [|split; [|split; [|split]]]]].
  - eexists. rewrite perform_drive. fold b d.
    unfold effects, signalled, propagated, told.
    rewrite Hn, Ho, fireAll_during, fireAll_app, fireAll_one, <- app_assoc.
    reflexivity.
  - exact Ht.
  - rewrite Ht. unfold SAXParser.controller_error.
    destruct listeners as [|listener ls];
      destruct (SAXParser._controller (during c this)); cbn; split;
      try done; intros [? ?]; done.
  - exact Hn.
  - rewrite Hn, List.filter_app, (filter_none _ _ Hnone). reflexivity.
  - eexists. rewrite parse_drive, text_of_source. fold d.
    unfold yields, propagated. rewrite Ho. reflexivity.
  - rewrite List.filter_app, filter_map_marshallEvent, (filter_none _ _ Hnone).
    reflexivity.
Qed.

(** C10.  When the exception that ends the loop on the input of a call is
    not an [XMLParseError] (an exception of a handler, or the [Error] of
    the driver for a state without handler), the call throws that same
    exception: the [SAXParser] has dispatched the events produced before it
    and nothing else (no ['error'], nothing to the controller, which [write]
    has cleared), the [PullParser] has yielded the results of these events
    and no result for the exception. *)
Theorem other_exceptions_propagate (c : SAXParser.call) (this : SAXParser.t)
    (tr : list SAXParser.effect) (message : string) :
  let b := SAXParser.base this in
  let d := drive (handlers b) (text_of c) (position b) (cx b) in
  outcome d = Throw (Throw_Error message) ->
  (exists this',
     SAXParser.perform c this tr
     = Some (this', tr ++ SAXParser.fireAll (emitted d) this,
             Throw (Throw_Error message)) /\
     (forall chunk controller, c = SAXParser.Write chunk controller ->
        SAXParser._controller this' = None)) /\
  (exists b',
     PullParser.parse (source_of c) b
     = Some (b', map PullParser.marshallEvent (emitted d),
             Throw (Throw_Error message))).
Proof.
  intros b d Ho. split.
  - eexists. rewrite perform_drive. fold b d.
    unfold effects, notified, signalled, propagated.
    rewrite Ho, app_nil_r, fireAll_during.
    split; [reflexivity|]. by intros chunk controller ->.
  - eexists. rewrite parse_drive, text_of_source. fold d.
    unfold yields, propagated. rewrite Ho, app_nil_r. reflexivity.
Qed.



End Errors.

(** ** Chunk invariance and the dead Context *)
Section Streaming.
Context `{Handler_ts} `{!Errored_ts} `{Host_js}.

(** C1.  A text [D] cut into chunks in any way, the chunks given one after
    another to the same parser, each by assigning [chunk] and running the
    loop to the end of the chunk, gives the same events in the same order,
    and ends the same way, as [D] given as one chunk: the [SAXParser] makes
    the same calls of listeners, the [PullParser] yields the same results.
    This holds for every [D] on which no handler throws an [XMLParseError],
    whatever the handlers are, and for every [D] at all when the handlers
    keep to the discipline of the dead Context. *)
Theorem chunk_invariance (chunks : list jsstring) (D : jsstring)
    (this : SAXParser.t) (tr : list SAXParser.effect) :
  let b := SAXParser.base this in
  let d := drive (handlers b) D (position b) (cx b) in
  concat chunks = D ->
  error_is_final (handlers b) D (position b) (cx b) ->
  exists this1 this2 b1 b2,
    SAXParser.perform_all
      (map (fun chunk => SAXParser.Parse (inl chunk)) chunks) this tr
    = Some (this1, tr ++ effects d this, propagated d) /\
    SAXParser.parse (inl D) this tr
    = Some (this2, tr ++ effects d this, propagated d) /\
    PullParser.parse_all (map inl chunks) b = Some (b1, yields d, propagated d) /\
    PullParser.parse (inl D) b = Some (b2, yields d, propagated d).
Proof.
  intros b d <- Hfinal.
  destruct (perform_all_concat chunks this tr Hfinal) as (this1 & Hsax).
  destruct (parse_all_concat chunks b Hfinal) as (b1 & Hpull).
  exists this1. eexists. exists b1. eexists.
  split; [exact Hsax|]. split; [apply run_chunk|].
  split; [exact Hpull|]. apply parse_drive.
Qed.




(** The driver has no guard of its own: after a call in which an
    [XMLParseError] was thrown, the next call still runs the handlers on
    its text, from the context and the position the first call left. *)
Lemma run_after_error_calls_handlers (c c' : SAXParser.call)
    (this : SAXParser.t) (tr : list SAXParser.effect) (e : XMLParseError) :
  let b := SAXParser.base this in
  let d := drive (handlers b) (text_of c) (position b) (cx b) in
  let d' := drive (handlers b) (text_of c') (position_after d) (cx_after d) in
  outcome d = Throw (Throw_XMLParseError e) ->
  exists this1 tr1 this2,
    SAXParser.perform c this tr = Some (this1, tr1, Normal ()) /\
    SAXParser.perform c' this1 tr1
    = Some (this2, tr1 ++ effects d' (during c' this1), propagated d').
Proof.
  intros b d d' Ho. eexists. eexists. eexists.
  rewrite !perform_drive, finished_base. fold b d.
  unfold propagated at 1. rewrite Ho. split; reflexivity.
Qed.

End Streaming.

(** ** [write] and the decoder *)
Section Decoding.
Import TextDecoder.

Lemma between_spec (lo hi b : Z) :
  between lo hi b = true <-> lo <= b <= hi.
Proof. unfold between. rewrite andb_true_iff, !Z.leb_le. done. Qed.

Lemma between_false (lo hi b : Z) :
  between lo hi b = false <-> b < lo \/ hi < b.
Proof. unfold between. rewrite andb_false_iff, !Z.leb_gt. done. Qed.

Ltac eqbs :=
  repeat match goal with
  | |- context [?a =? ?b] => destruct (Z.eqb_spec a b); try lia
  | H : context [?a =? ?b] |- _ => destruct (Z.eqb_spec a b); try lia
  end.

Ltac decide_range :=
  match goal with
  | |- context [between ?lo ?hi ?b] =>
      let E := fresh "E" in
      destruct (between lo hi b) eqn:E;
      [apply between_spec in E|apply between_false in E]; try lia
  | |- context [?a =? ?b] =>
      let E := fresh "E" in
      destruct (Z.eqb_spec a b) as [E|E]; try lia
  end.

(** A continuation byte read as a first byte is an error. *)
Lemma lead_continuation (b : Z) :
  0x80 <= b <= 0xBF -> lead b = ([REPLACEMENT], None).
Proof. intros Hb. unfold lead. repeat decide_range. reflexivity. Qed.

Lemma utf8_continuations (bs : list Z) :
  Forall (fun b => 0x80 <= b <= 0xBF) bs ->
  utf8 None bs = repeat REPLACEMENT (length bs).
Proof.
  induction 1 as [|b bs Hb _ IH]; [done|].
  cbn [utf8]. rewrite (lead_continuation b Hb). cbn. by rewrite IH.
Qed.

Lemma lead_2 (b : Z) :
  0xC2 <= b <= 0xDF ->
  lead b = ([], Some {| code_point := Z.land b 0x1F; bytes_needed := 1;
                        lower_boundary := 0x80; upper_boundary := 0xBF |}).
Proof. intros Hb. unfold lead. repeat decide_range. reflexivity. Qed.

Lemma lead_3 (b : Z) :
  0xE0 <= b <= 0xEF ->
  lead b = ([], Some {| code_point := Z.land b 0xF; bytes_needed := 2;
                        lower_boundary := if b =? 0xE0 then 0xA0 else 0x80;
                        upper_boundary := if b =? 0xED then 0x9F else 0xBF |}).
Proof.
  intros Hb. unfold lead.
  destruct (between 0x00 0x7F b) eqn:E1; [apply between_spec in E1; lia|].
  destruct (between 0xC2 0xDF b) eqn:E2; [apply between_spec in E2; lia|].
  destruct (between 0xE0 0xEF b) eqn:E3; [done|].
  apply between_false in E3. lia.
Qed.

Lemma lead_4 (b : Z) :
  0xF0 <= b <= 0xF4 ->
  lead b = ([], Some {| code_point := Z.land b 0x7; bytes_needed := 3;
                        lower_boundary := if b =? 0xF0 then 0x90 else 0x80;
                        upper_boundary := if b =? 0xF4 then 0x8F else 0xBF |}).
Proof.
  intros Hb. unfold lead.
  destruct (between 0x00 0x7F b) eqn:E1; [apply between_spec in E1; lia|].
  destruct (between 0xC2 0xDF b) eqn:E2; [apply between_spec in E2; lia|].
  destruct (between 0xE0 0xEF b) eqn:E3; [apply between_spec in E3; lia|].
  destruct (between 0xF0 0xF4 b) eqn:E4; [done|].
  apply between_false in E4. lia.
Qed.

Lemma multibyte_shape (s : list Z) : multibyte s = true -> shape s.
Proof.
  destruct s as [|b1 [|b2 [|b3 [|b4 [|b5 s]]]]]; cbn; try discriminate;
    intros Hm.
  - apply andb_true_iff in Hm as [H1 H2]. apply between_spec in H1.
    by constructor.
  - apply andb_true_iff in Hm as [H12 H3].
    repeat (apply orb_true_iff in H12 as [H12|H12]);
      apply andb_true_iff in H12 as [H1 H2];
      (apply Z.eqb_eq in H1 || apply between_spec in H1);
      constructor; try lia; try done;
      eqbs; done.
  - apply andb_true_iff in Hm as [Hm H4].
    apply andb_true_iff in Hm as [H12 H3].
    repeat (apply orb_true_iff in H12 as [H12|H12]);
      apply andb_true_iff in H12 as [H1 H2];
      (apply Z.eqb_eq in H1 || apply between_spec in H1);
      constructor; try lia; try done;
      eqbs; done.
Qed.

(** A sequence cut short decodes to one U+FFFD. *)
Lemma utf8_cut_short (s a b : list Z) :
  shape s -> a ++ b = s -> a <> [] -> b <> [] ->
  utf8 None a = [REPLACEMENT].
Proof.
  intros Hs Heq Ha Hb.
  destruct Hs as [b1 b2 H1 H2|b1 b2 b3 H1 H2 H3|b1 b2 b3 b4 H1 H2 H3 H4];
    destruct a as [|a1 [|a2 [|a3 [|a4 a]]]]; try done;
    destruct b as [|c1 b]; try done;
    injection Heq as <-; intros; subst;
    try match goal with H : _ ++ _ :: _ = [] |- _ =>
          by destruct (app_cons_not_nil _ _ _ (eq_sym H)) end;
    cbn [utf8];
    rewrite ?(lead_2 _ H1), ?(lead_3 _ H1), ?(lead_4 _ H1);
    cbn [utf8 app lower_boundary upper_boundary bytes_needed code_point];
    rewrite ?H2;
    cbn [utf8 app lower_boundary upper_boundary bytes_needed code_point];
    rewrite ?H3; reflexivity.
Qed.

(** A whole sequence decodes to one code point. *)
Lemma utf8_whole (s : list Z) : shape s -> exists cp, utf8 None s = [cp].
Proof.
  intros [b1 b2 H1 H2|b1 b2 b3 H1 H2 H3|b1 b2 b3 b4 H1 H2 H3 H4];
    cbn [utf8];
    rewrite ?(lead_2 _ H1), ?(lead_3 _ H1), ?(lead_4 _ H1);
    cbn [utf8 app lower_boundary upper_boundary bytes_needed code_point];
    rewrite ?H2;
    cbn [utf8 app lower_boundary upper_boundary bytes_needed code_point];
    rewrite ?H3;
    cbn [utf8 app lower_boundary upper_boundary bytes_needed code_point];
    rewrite ?H4; eexists; reflexivity.
Qed.

Lemma shape_continuations (b1 : Z) (bs : list Z) :
  shape (b1 :: bs) -> Forall (fun b => 0x80 <= b <= 0xBF) bs.
Proof.
  inversion 1; subst;
    repeat match goal with
    | H : between _ _ _ = true |- _ => apply between_spec in H
    end;
    eqbs; repeat constructor; lia.
Qed.

Lemma utf16_replacement : utf16 REPLACEMENT = [REPLACEMENT].
Proof. reflexivity. Qed.

Lemma utf16_replacements (n : nat) :
  flat_map utf16 (repeat REPLACEMENT n) = repeat REPLACEMENT n.
Proof.
  induction n as [|n IH]; [done|].
  cbn [repeat flat_map]. by rewrite IH.
Qed.

Lemma decode_replacements (n : nat) (cps : list Z) :
  cps = repeat REPLACEMENT (S n) ->
  flat_map utf16 (strip_bom cps) = repeat REPLACEMENT (S n).
Proof.
  intros ->.
  change (strip_bom (repeat REPLACEMENT (S n)))
    with (repeat REPLACEMENT (S n)).
  apply utf16_replacements.
Qed.

Lemma utf16_not_replacements (cp : Z) (n : nat) :
  (2 <= n)%nat -> utf16 cp <> repeat REPLACEMENT n.
Proof.
  intros Hn. unfold utf16. destruct (cp <? 0x10000).
  - destruct n as [|[|n]]; [lia|lia|discriminate].
  - destruct n as [|[|[|n]]]; [lia|lia| |discriminate].
    cbn [repeat]. intros [= _ Hl].
    change 0x3FF with (Z.ones 10) in Hl. rewrite Z.land_ones in Hl by lia.
    pose proof (Z.mod_pos_bound (cp - 0x10000) (2 ^ 10)) as Hb.
    unfold REPLACEMENT in Hl. lia.
Qed.

(** The two halves of a sequence, decoded apart, are U+FFFD only, and are
    not what the sequence decodes to. *)
Lemma decode_split (s a b : list Z) :
  multibyte s = true -> a ++ b = s -> a <> [] -> b <> [] ->
  decode a ++ decode b = repeat REPLACEMENT (S (length b)) /\
  decode a ++ decode b <> decode s.
Proof.
  intros Hm Hs Ha Hb. apply multibyte_shape in Hm.
  assert (Hda : decode a = [REPLACEMENT]).
  { unfold decode. by rewrite (utf8_cut_short s a b). }
  assert (Hdb : decode b = repeat REPLACEMENT (length b)).
  { unfold decode. destruct b as [|b1 b]; [done|].
    apply decode_replacements, utf8_continuations.
    destruct a as [|a1 a]; [done|]. subst s. cbn in Hm.
    apply shape_continuations in Hm.
    by apply Forall_app in Hm as [_ Hm]. }
  rewrite Hda, Hdb. split; [done|].
  destruct (utf8_whole s Hm) as [cp Hcp]. unfold decode. rewrite Hcp.
  change ([REPLACEMENT] ++ repeat REPLACEMENT (length b))
    with (repeat REPLACEMENT (S (length b))).
  destruct b as [|b1 b]; [done|].
  cbn [strip_bom]. destruct (cp =? BOM); [done|].
  cbn [flat_map]. rewrite app_nil_r.
  intros Heq. symmetry in Heq. revert Heq.
  apply utf16_not_replacements. cbn. lia.
Qed.

(** A byte-order mark at the start of the bytes is dropped. *)
Lemma decode_bom (bytes : list Z) :
  decode (0xEF :: 0xBB :: 0xBF :: bytes) = flat_map utf16 (utf8 None bytes).
Proof. reflexivity. Qed.

End Decoding.

Section Write.
Context `{Handler_ts} `{Host_js}.

(** C9.  [write] hands the driver the text its own bytes decode to, in
    whatever state the parser is: nothing of the bytes of earlier calls
    takes part.  So a byte-order mark at the start of the bytes of any call
    is dropped, and when the bytes of a character of more than one byte are
    split between two calls, the two texts are U+FFFD only, one for the
    first part and one for each byte of the second, and differ from the
    text of the character. *)
Theorem write_decodes_each_chunk_alone :
  (forall (chunk : list Z) controller (this : SAXParser.t) tr,
     let b := SAXParser.base this in
     let d := drive (handlers b) (TextDecoder.decode chunk)
                (position b) (cx b) in
     exists this',
       SAXParser.write chunk controller this tr
       = Some (this',
               tr ++ effects d (SAXParser.with_controller controller this),
               propagated d) /\
       _chunk (SAXParser.base this') = TextDecoder.decode chunk /\
       cx (SAXParser.base this') = cx_after d) /\
  (forall bytes : list Z,
     TextDecoder.decode (0xEF :: 0xBB :: 0xBF :: bytes)
     = flat_map TextDecoder.utf16 (TextDecoder.utf8 None bytes)) /\
  (forall s a b : list Z,
     TextDecoder.multibyte s = true ->
     a ++ b = s -> a <> [] -> b <> [] ->
     TextDecoder.decode a ++ TextDecoder.decode b
     = repeat TextDecoder.REPLACEMENT (S (length b)) /\
     TextDecoder.decode a ++ TextDecoder.decode b <> TextDecoder.decode s).
Proof.
  split; [|split].
  - intros chunk controller this tr b d. eexists.
    rewrite write_drive. done.
  - apply decode_bom.
  - apply decode_split.
Qed.

End Write.

(** ** The small instance at work *)
Section DemoFacts.
Import Demo.

Lemma demo_handlers (st : string) (handler : XMLParseHandler) :
  handlers constructor !! st = Some handler -> handler = handle.
Proof.
  intros Hh. apply constructor_lookup in Hh.
  assert (Hall : Forall (fun r : string * XMLParseHandler => r.2 = handle)
                   registrations) by (repeat constructor).
  rewrite Forall_forall in Hall. exact (Hall _ Hh).
Qed.

Lemma demo_throw_errors : handlers_throw_errors (handlers constructor).
Proof.
  intros handler pos cx c cx' events Hh Hr.
  apply demo_handlers in Hh as ->. unfold handle in Hr.
  destruct (d_errored cx); [|destruct c as [u|]];
    repeat (let E := fresh in destruct (_ =? _) eqn:E in Hr);
    try discriminate Hr; injection Hr as _ <-; repeat constructor; done.
Qed.

Lemma demo_discipline : dead_context_discipline (handlers constructor).
Proof.
  split.
  - intros handler pos cx c cx' e Hh Hr.
    pose proof (demo_handlers _ _ Hh) as ->. unfold handle in Hr.
    destruct (d_errored cx); [|destruct c as [u|]];
      repeat (let E := fresh in destruct (_ =? _) eqn:E in Hr);
      try discriminate Hr; injection Hr as <- _;
      (split; [reflexivity|exists handle; exact Hh]).
  - intros handler pos cx c Hh He.
    pose proof (demo_handlers _ _ Hh) as ->. exists cx.
    unfold handle. cbn in He. rewrite He. eauto.
Qed.

End DemoFacts.

(** ** The claims at concrete input *)
Section Witnesses.
Import Demo.

(** The text ["<a!b"] as one chunk and as ["<"], ["a!"], ["b"]: the
    structural error at ['!'] is the last event either way. *)
Lemma chunk_invariance_witness :
  let chunks := [[60]; [97; 33]; [98]] in
  let D := [60; 97; 33; 98] in
  let b := SAXParser.base sax in
  let d := drive (handlers b) D (position b) (cx b) in
  concat chunks = D /\
  error_is_final (handlers b) D (position b) (cx b) /\
  exists this1 this2 b1 b2,
    SAXParser.perform_all
      (map (fun chunk => SAXParser.Parse (inl chunk)) chunks) sax []
    = Some (this1, [] ++ effects d sax, propagated d) /\
    SAXParser.parse (inl D) sax []
    = Some (this2, [] ++ effects d sax, propagated d) /\
    PullParser.parse_all (map inl chunks) b = Some (b1, yields d, propagated d) /\
    PullParser.parse (inl D) b = Some (b2, yields d, propagated d).
Proof.
  intros chunks D b d.
  split; [reflexivity|]. split; [left; apply demo_discipline|].
  apply (chunk_invariance chunks D sax []);
    [reflexivity|left; apply demo_discipline].
Defined.

(** ["<a!b"]: one ['error'], for the ['!'] at column 3, given to the one
    listener subscribed to ['error']. *)
Lemma one_error_notification_witness :
  let c := SAXParser.Parse (inl [60; 97; 33; 98]) in
  let e : XMLParseError := {| message := "unexpected !";
              at_position := {| line := 1; column := 3 |} |} in
  let b := SAXParser.base sax in
  let d := drive (handlers b) (text_of c) (position b) (cx b) in
  let listeners := default [] (SAXParser._listeners sax !! "error") in
  let told :=
    SAXParser.fireAll (emitted d) sax
      ++ map (fun listener => SAXParser.Call listener (Ev_error e)) listeners
      ++ SAXParser.controller_error e (during c sax) in
  handlers_throw_errors (handlers b) /\
  outcome d = Throw (Throw_XMLParseError e) /\
  (exists this',
     SAXParser.perform c sax [] = Some (this', [] ++ told, Normal ())) /\
  errors_told told
  = repeat e (length listeners
              + length (SAXParser.controller_error e (during c sax))) /\
  (errors_told told = [] <->
   listeners = [] /\ SAXParser._controller (during c sax) = None) /\
  notified d = emitted d ++ [Ev_error e] /\
  List.filter is_error_event (notified d) = [Ev_error e] /\
  (exists b',
     PullParser.parse (source_of c) b
     = Some (b',
             map PullParser.marshallEvent (emitted d)
               ++ [PullParser.error_result e],
             Normal ())) /\
  List.filter is_error_result
    (map PullParser.marshallEvent (emitted d) ++ [PullParser.error_result e])
  = [PullParser.error_result e].
Proof.
  intros c e b d listeners told.
  split; [apply demo_throw_errors|]. split; [vm_compute; reflexivity|].
  apply (one_error_notification c sax [] e);
    [apply demo_throw_errors|vm_compute; reflexivity].
Defined.

(** C2, as the spec has it, fails.  ["<!"] given to a new [SAXParser], one
    nobody has subscribed to: the handler throws its structural error at
    ['!'], [run] catches it, [fireListeners] finds no listener for
    ['error'], there is no controller, and [parse] returns normally: the
    consumer is told of no error.  It is the same with listeners for other
    events only.  The [PullParser] yields its ['error'] result. *)
Lemma error_without_listener_reaches_nobody :
  let e : XMLParseError := {| message := "unexpected !";
              at_position := {| line := 1; column := 2 |} |} in
  let listening :=
    SAXParser.on "text" 1%nat (SAXParser.on "start_document" 2%nat SAXParser.new) in
  outcome (drive (handlers constructor) [60; 33] (position constructor)
             (cx constructor))
  = Throw (Throw_XMLParseError e) /\
  option_map (fun r => (r.1.2, r.2))
    (SAXParser.parse (inl [60; 33]) SAXParser.new [])
  = Some ([], Normal ()) /\
  option_map (fun r => (r.1.2, errors_told r.1.2, r.2))
    (SAXParser.parse (inl [60; 33]) listening [])
  = Some ([SAXParser.Call 2%nat Ev_start_document], [], Normal ()) /\
  option_map (fun r => (r.1.2, r.2))
    (SAXParser.write [60; 33] None SAXParser.new [])
  = Some ([], Normal ()) /\
  option_map (fun r => (r.1.2, r.2))
    (PullParser.parse (inl [60; 33]) constructor)
  = Some ([PullParser.result "start_document"; PullParser.error_result e],
          Normal ()).
Proof. vm_compute. repeat split; reflexivity. Qed.




(** ["<?a"]: ['?'] leaves a state without handler, and the next character
    makes the driver throw. *)
Lemma other_exceptions_propagate_witness :
  let c := SAXParser.Parse (inl [60; 63; 97]) in
  let message := "Handler for NOT_A_STATE not found"%string in
  let b := SAXParser.base sax in
  let d := drive (handlers b) (text_of c) (position b) (cx b) in
  outcome d = Throw (Throw_Error message) /\
  (exists this',
     SAXParser.perform c sax []
     = Some (this', [] ++ SAXParser.fireAll (emitted d) sax,
             Throw (Throw_Error message)) /\
     (forall chunk controller, c = SAXParser.Write chunk controller ->
        SAXParser._controller this' = None)) /\
  (exists b',
     PullParser.parse (source_of c) b
     = Some (b', map PullParser.marshallEvent (emitted d),
             Throw (Throw_Error message))).
Proof.
  intros c message b d.
  split; [vm_compute; reflexivity|].
  apply (other_exceptions_propagate c sax [] message).
  vm_compute. reflexivity.
Defined.

(** The small instance, run. *)

Example demo_pull_parse :
  option_map (fun r => (r.1.2, r.2))
    (PullParser.parse (inl [60; 10; 33; 97])
       constructor)
  = Some ([PullParser.result "start_document";
           PullParser.marshallEvent (Ev_text [10] [] false);
           PullParser.error_result
             {| message := "unexpected !";
                at_position := {| line := 2; column := 1 |} |}],
          Normal ()).
Proof. vm_compute. reflexivity. Qed.

Example demo_sax_write :
  option_map (fun r => (r.1.2, r.2))
    (SAXParser.write [60; 97; 33; 98] (Some 7%nat) sax [])
  = Some ([SAXParser.Call 2%nat Ev_start_document;
           SAXParser.Call 1%nat (Ev_text [97] [] false);
           SAXParser.Call 3%nat (Ev_text [97] [] false);
           SAXParser.Call 4%nat
             (Ev_error {| message := "unexpected !";
                          at_position := {| line := 1; column := 3 |} |});
           SAXParser.Controller_error 7%nat
             {| message := "unexpected !";
                at_position := {| line := 1; column := 3 |} |}],
          Normal ()).
Proof. vm_compute. reflexivity. Qed.

Example decode_e_acute :
  TextDecoder.decode [0xC3; 0xA9] = [0xE9] /\
  TextDecoder.decode [0xC3] ++ TextDecoder.decode [0xA9] = [0xFFFD; 0xFFFD].
Proof. split; reflexivity. Qed.

Example decode_astral :
  TextDecoder.decode [0xF0; 0x9F; 0x98; 0x80] = [0xD83D; 0xDE00].
Proof. reflexivity. Qed.

End Witnesses.

(** ** The second small instance at work *)
Section TidyFacts.
Import Demo Tidy.

Lemma tidy_handlers (st : string) (handler : XMLParseHandler) :
  handlers (constructor (H0 := Tidy.handler_ts)) !! st = Some handler ->
  handler = Tidy.handle.
Proof.
  intros Hh. apply constructor_lookup in Hh.
  assert (Hall : Forall (fun r : string * XMLParseHandler => r.2 = Tidy.handle)
                   (registrations (H0 := Tidy.handler_ts)))
    by (repeat constructor).
  rewrite Forall_forall in Hall. exact (Hall _ Hh).
Qed.

Lemma tidy_states_closed :
  states_closed (handlers (constructor (H0 := Tidy.handler_ts))).
Proof.
  split; [apply list_elem_of_here|].
  intros handler pos cx c cx' r Hh Hr.
  assert (Hin : state cx ∈ STATES)
    by (apply (constructor_STATES (H0 := Tidy.handler_ts)); by exists handler).
  apply tidy_handlers in Hh as ->. unfold Tidy.handle in Hr.
  destruct (d_errored cx); [|destruct c as [u|]];
    repeat (let E := fresh in destruct (_ =? _) eqn:E in Hr);
    injection Hr as <- _; try exact Hin.
  do 2 apply list_elem_of_further. apply list_elem_of_here.
Qed.

(** The table of the second instance: every parser a consumer can have is
    in a state with a handler. *)
Lemma handler_table_has_24_states_witness :
  let hs := handlers (constructor (H0 := Tidy.handler_ts)) in
  states_closed hs /\
  length (registrations (H0 := Tidy.handler_ts)) = 24%nat /\
  registered_states (H0 := Tidy.handler_ts) = STATES /\
  NoDup STATES /\
  size hs = 24%nat /\
  (forall st, is_Some (hs !! st) <-> st ∈ STATES) /\
  (forall this : SAXParser.t,
     sax_reachable (H0 := Tidy.handler_ts) this ->
     let b := SAXParser.base this in
     is_Some (handlers b !! state (cx b)) /\
     forall c : SAXParser.call,
       always_handled (handlers b) (text_of c) (position b) (cx b) = true) /\
  (forall this : ParserBase,
     pull_reachable (H0 := Tidy.handler_ts) this ->
     is_Some (handlers this !! state (cx this)) /\
     forall source : jsstring + list Z,
       always_handled (handlers this) (chunk_of source) (position this)
         (cx this) = true).
Proof.
  intros hs. split; [apply tidy_states_closed|].
  apply (handler_table_has_24_states (H0 := Tidy.handler_ts)).
  apply tidy_states_closed.
Defined.

(** ["<a"], then ["b!"], then ["c"] given to a parser of the second
    instance: a handler is found at every character. *)
Example tidy_always_handled :
  let hs := handlers (constructor (H0 := Tidy.handler_ts)) in
  let d1 := drive hs [60; 97] (position constructor) (cx constructor) in
  let d2 := drive hs [98; 33] (position_after d1) (cx_after d1) in
  always_handled hs [60; 97] (position constructor) (cx constructor) = true /\
  always_handled hs [98; 33] (position_after d1) (cx_after d1) = true /\
  always_handled hs [99] (position_after d2) (cx_after d2) = true /\
  always_handled (handlers (constructor (H0 := Demo.handler_ts))) [63; 97]
    (position constructor) (cx constructor) = false.
Proof. vm_compute. repeat split; reflexivity. Qed.

End TidyFacts.


(** * More of [parser.ts] *)

(** ** The cursor over a chunk *)
Section ReadingOn.
Context `{Handler_ts}.

Lemma reads_from (n : nat) :
  forall this : ParserBase,
    -1 <= _index this ->
    let chars :=
      (fun i => _chunk this !! (Z.to_nat (_index this + 1) + i)%nat)
        <$> seq 0 n in
    reads n this
    = (chars,
       {| _cx := _cx this;
          _handlers := _handlers this;
          _chunk := _chunk this;
          _index := _index this + Z.of_nat n;
          _position := foldl advance (_position this) chars |}).
Proof.
  induction n as [|n IH]; intros this Hi; cbn zeta.
  - cbn. destruct this. cbn. do 2 f_equal. lia.
  - cbn [reads]. unfold readNext. rewrite IH by (cbn; lia).
    cbn [_cx _handlers _chunk _index _position seq fmap list_fmap foldl].
    unfold js_index.
    destruct (Z.ltb_spec (_index this + 1) 0) as [?|_]; [lia|].
    rewrite Nat.add_0_r, <- fmap_S_seq, <- list_fmap_compose.
    replace (Z.to_nat (_index this + 1 + 1))
      with (S (Z.to_nat (_index this + 1))) by lia.
    assert (Hext :
      (fun i => _chunk this !! (S (Z.to_nat (_index this + 1)) + i)%nat)
        <$> seq 0 n
      = ((fun i => _chunk this !! (Z.to_nat (_index this + 1) + i)%nat) ∘ S)
        <$> seq 0 n).
    { apply list_fmap_ext. intros _ i _. cbn. f_equal. lia. }
    rewrite Hext.
    replace (_index this + Z.of_nat (S n))
      with (_index this + 1 + Z.of_nat n) by lia.
    reflexivity.
Qed.

Lemma lookups_take {A : Type} (l : list A) (n : nat) :
  (n <= length l)%nat -> (fun i => l !! i) <$> seq 0 n = Some <$> take n l.
Proof.
  revert l. induction n as [|n IH]; intros l Hn; [done|].
  destruct l as [|x l]; [cbn in Hn; lia|].
  cbn [seq fmap list_fmap take]. rewrite <- fmap_S_seq, <- list_fmap_compose.
  cbn. f_equal. rewrite <- IH by (cbn in Hn; lia). done.
Qed.

(** X1.  After a chunk is assigned, [n] calls of [readNext] return the
    characters at 0, 1, ..., [n-1] of the chunk, in this order, and
    [undefined] from the end of the chunk on; the cursor is at [n-1], the
    position has advanced once for each character returned, [undefined]
    included, and the context is untouched.  [hasNext] is true exactly as
    long as fewer characters than the chunk has were read. *)
Theorem reading_a_chunk (chunk : jsstring) (this : ParserBase) (n : nat) :
  let r := reads n (set_chunk chunk this) in
  r.1 = (fun i => chunk !! i) <$> seq 0 n /\
  ((n <= length chunk)%nat -> r.1 = Some <$> take n chunk) /\
  _index r.2 = -1 + Z.of_nat n /\
  position r.2 = foldl advance (position this) r.1 /\
  cx r.2 = cx this /\
  _chunk r.2 = chunk /\
  (hasNext r.2 = true <-> (n < length chunk)%nat).
Proof.
  cbn zeta. rewrite reads_from by (cbn; lia).
  cbn [fst snd set_chunk _chunk _index _position _cx].
  change (Z.to_nat (-1 + 1)) with 0%nat. cbn [Nat.add].
  split; [done|]. split; [apply lookups_take|].
  split; [done|]. split; [done|]. split; [done|]. split; [done|].
  unfold hasNext, js_length. cbn [_chunk _index]. rewrite Z.ltb_lt. lia.
Qed.

Lemma advance_line_column (pos : XMLPosition) (c : Z) :
  advance pos (Some c)
  = if decide (c = LF) then {| line := line pos + 1; column := 0 |}
    else {| line := line pos; column := column pos + 1 |}.
Proof.
  unfold advance, is_LF. destruct (Z.eqb_spec c LF), (decide (c = LF)); done.
Qed.

Lemma foldl_advance_line (cs : jsstring) :
  forall pos,
    line (foldl advance pos (Some <$> cs)) = line pos + newlines cs.
Proof.
  unfold newlines.
  induction cs as [|c cs IH]; intros pos; cbn [fmap list_fmap foldl].
  - cbn. lia.
  - rewrite IH, advance_line_column, filter_cons.
    destruct (decide (c = LF)); cbn [line length]; lia.
Qed.

Lemma foldl_advance_column (cs : jsstring) :
  forall pos,
    LF ∉ cs ->
    column (foldl advance pos (Some <$> cs))
    = column pos + Z.of_nat (length cs).
Proof.
  induction cs as [|c cs IH]; intros pos Hnot; cbn [fmap list_fmap foldl].
  - cbn. lia.
  - apply not_elem_of_cons in Hnot as [Hc Hcs].
    rewrite IH by done. rewrite advance_line_column.
    destruct (decide (c = LF)); [done|]. cbn [column length]. lia.
Qed.

(** X2.  The position in lines and columns.  After the whole of a chunk has
    been read, the line is the line before plus the number of newlines of
    the chunk; the column is the number of characters after the last
    newline of the chunk, or, if the chunk has no newline, the column
    before plus the length of the chunk.  So the line never goes down, and
    a newline itself is at column 0 of the line it starts. *)
Theorem position_in_lines (chunk : jsstring) (this : ParserBase) :
  let this' := (reads (length chunk) (set_chunk chunk this)).2 in
  line (position this') = line (position this) + newlines chunk /\
  line (position this) <= line (position this') /\
  (LF ∉ chunk ->
   column (position this')
   = column (position this) + Z.of_nat (length chunk)) /\
  (forall before after : jsstring,
     chunk = before ++ LF :: after -> LF ∉ after ->
     column (position this') = Z.of_nat (length after)).
Proof.
  cbn zeta.
  destruct (reading_a_chunk chunk this (length chunk))
    as (_ & Hchars & _ & -> & _).
  rewrite Hchars, firstn_all by done.
  split; [apply foldl_advance_line|].
  split; [rewrite foldl_advance_line; unfold newlines; lia|].
  split; [apply foldl_advance_column|].
  intros before after -> Hnot.
  rewrite fmap_app, foldl_app. cbn [fmap list_fmap foldl].
  rewrite foldl_advance_column by done.
  rewrite advance_line_column. destruct (decide (LF = LF)); [|done].
  cbn [column]. lia.
Qed.

End ReadingOn.

(** ** The table, an empty text and a missing handler *)
Section Edges.
Context `{Handler_ts} `{Host_js}.

(** X3.  [appendHandler] sets the handler of one state and nothing else: the
    handlers of the other states, the context, the chunk, the cursor and
    the position stay, and a later [appendHandler] for the same state wins.
    On a new parser the table keeps its 24 entries when the state is one of
    the 24, and has 25 otherwise.  With the context in that state the
    driver calls the handler that was set. *)
Theorem appendHandler_replaces (st : string) (handler : XMLParseHandler)
    (this : ParserBase) :
  let this' := appendHandler st handler this in
  handlers this' !! st = Some handler /\
  (forall other, other <> st ->
     handlers this' !! other = handlers this !! other) /\
  (cx this' = cx this /\ _chunk this' = _chunk this /\
   _index this' = _index this /\ position this' = position this) /\
  (forall later,
     handlers (appendHandler st later this')
     = handlers (appendHandler st later this)) /\
  size (handlers (appendHandler st handler constructor))
  = (if decide (st ∈ registered_states) then 24%nat else 25%nat) /\
  (forall (c : Z) (cs : jsstring) (pos : XMLPosition) (cx : XMLParseContext),
     state cx = st ->
     drive (handlers this') (c :: cs) pos cx
     = match handler (advance pos (Some c)) cx (Some c) with
       | (cx', Normal events) =>
           let d := drive (handlers this') cs (advance pos (Some c)) cx' in
           {| consumed := S (consumed d);
              position_after := position_after d;
              cx_after := cx_after d;
              emitted := events ++ emitted d;
              outcome := outcome d |}
       | (cx', Throw e) =>
           {| consumed := 1; position_after := advance pos (Some c);
              cx_after := cx'; emitted := []; outcome := Throw e |}
       end).
Proof.
  cbn zeta. unfold appendHandler, handlers. cbn [_handlers].
  split; [apply lookup_insert_eq|].
  split; [by intros other Hne; apply lookup_insert_ne|].
  split; [done|]. split; [intros later; apply insert_insert_eq|].
  split.
  - fold (handlers constructor).
    destruct (decide (st ∈ registered_states)) as [Hin|Hnot].
    + apply constructor_registered in Hin as [h Hh].
      rewrite map_size_insert_Some by done. apply constructor_size.
    + rewrite map_size_insert_None, constructor_size; [done|].
      destruct (handlers constructor !! st) eqn:Hh; [|done].
      destruct Hnot. apply constructor_registered. eauto.
  - intros c cs pos cx <-. rewrite drive_cons, lookup_insert_eq. reflexivity.
Qed.

(** X4.  A call whose text is empty (an empty string, no bytes, or bytes
    that decode to nothing) calls no handler, whatever the state of the
    context and whether or not it has a handler: nothing is dispatched or
    yielded, nothing is thrown, and the context and the position are as
    before. *)
Theorem empty_text_is_a_no_op (c : SAXParser.call) (this : SAXParser.t)
    (tr : list SAXParser.effect) :
  let b := SAXParser.base this in
  text_of c = [] ->
  exists this' b',
    SAXParser.perform c this tr = Some (this', tr, Normal ()) /\
    PullParser.parse (source_of c) b = Some (b', [], Normal ()) /\
    SAXParser.base this' = b' /\
    cx b' = cx b /\ position b' = position b /\ handlers b' = handlers b /\
    hasNext b' = false.
Proof.
  intros b Ht.
  set (d := drive (handlers b) (text_of c) (position b) (cx b)).
  assert (Hd : d = {| consumed := 0; position_after := position b;
                      cx_after := cx b; emitted := [];
                      outcome := Normal () |})
    by (unfold d; by rewrite Ht).
  exists (finished c d this), (after d (set_chunk (text_of c) b)).
  rewrite perform_drive, parse_drive, text_of_source, finished_base.
  fold b d. unfold effects, yields, notified, signalled, propagated.
  rewrite Hd, Ht. cbn. rewrite app_nil_r. done.
Qed.

(** X5.  When the state of the context has no handler and there is a
    character to read, the call throws the driver's [Error] before reading
    it: nothing is dispatched or yielded, the context and the position are
    as before, and the cursor is still in front of the first character of
    the text. *)
Theorem missing_handler_reads_nothing (c : SAXParser.call)
    (this : SAXParser.t) (tr : list SAXParser.effect) (ch : Z)
    (rest : jsstring) :
  let b := SAXParser.base this in
  text_of c = ch :: rest ->
  handlers b !! state (cx b) = None ->
  exists this' b',
    SAXParser.perform c this tr
    = Some (this', tr, Throw (handler_not_found (state (cx b)))) /\
    PullParser.parse (source_of c) b
    = Some (b', [], Throw (handler_not_found (state (cx b)))) /\
    SAXParser.base this' = b' /\
    cx b' = cx b /\ position b' = position b /\
    _index b' = -1 /\ hasNext b' = true.
Proof.
  intros b Ht Hh.
  set (d := drive (handlers b) (text_of c) (position b) (cx b)).
  assert (Hd : d = {| consumed := 0; position_after := position b;
                      cx_after := cx b; emitted := [];
                      outcome := Throw (handler_not_found (state (cx b))) |})
    by (unfold d; by rewrite Ht, drive_cons, Hh).
  exists (finished c d this), (after d (set_chunk (text_of c) b)).
  rewrite perform_drive, parse_drive, text_of_source, finished_base.
  fold b d. unfold effects, yields, notified, signalled, propagated.
  rewrite Hd, Ht. cbn. rewrite app_nil_r. repeat split.
  unfold hasNext, js_length. cbn. apply Z.ltb_lt. lia.
Qed.

End Edges.

(** ** What reaches the consumer *)
Section Consumer.
Context `{Handler_ts} `{Host_js}.

Lemma fireAll_allowed (events : list XMLParseEvent) (this : SAXParser.t)
    (k : option WritableStreamDefaultController)
    (calls : list SAXParser.call) :
  Forall (allowed (SAXParser._listeners this) k calls)
    (SAXParser.fireAll events this).
Proof.
  unfold SAXParser.fireAll. induction events as [|event events IH];
    cbn [flat_map]; [constructor|].
  apply Forall_app. split; [|exact IH].
  unfold SAXParser.fireListeners. apply Forall_fmap, Forall_forall.
  intros l Hl. exact Hl.
Qed.

Lemma effects_allowed (d : driven) (c : SAXParser.call) (this : SAXParser.t)
    (calls : list SAXParser.call) :
  Forall (allowed (SAXParser._listeners this) (SAXParser._controller this)
            (c :: calls))
    (effects d (during c this)).
Proof.
  unfold effects. apply Forall_app. split.
  - rewrite fireAll_during. apply fireAll_allowed.
  - unfold signalled, SAXParser.controller_error.
    destruct (outcome d) as [[]|[e|m]]; try constructor.
    destruct c as [[s|s]|chunk [k|]];
      cbn [during SAXParser._controller SAXParser.with_controller];
      try apply Forall_nil_2.
    + destruct (SAXParser._controller this) as [k|]; [|constructor].
      apply Forall_singleton. by left.
    + apply Forall_singleton. right. exists chunk. apply list_elem_of_here.
Qed.

Lemma allowed_later (ls : gmap string (list Listener))
    (k k' : option WritableStreamDefaultController) (c : SAXParser.call)
    (calls : list SAXParser.call) (eff : SAXParser.effect) :
  k' = k \/ k' = None ->
  allowed ls k' calls eff -> allowed ls k (c :: calls) eff.
Proof.
  intros Hk. destruct eff as [l event|controller e]; cbn; [done|].
  intros [Hc|[chunk Hin]].
  - destruct Hk as [->| ->]; [by left|done].
  - right. exists chunk. by apply list_elem_of_further.
Qed.

Lemma finished_controller (c : SAXParser.call) (d : driven)
    (this : SAXParser.t) :
  SAXParser._controller (finished c d this) = SAXParser._controller this \/
  SAXParser._controller (finished c d this) = None.
Proof. destruct c as [[?|?]|? ?]; cbn; eauto. Qed.

Lemma perform_all_allowed (calls : list SAXParser.call) :
  forall (this : SAXParser.t) (tr : list SAXParser.effect),
    exists this' new r,
      SAXParser.perform_all calls this tr = Some (this', tr ++ new, r) /\
      Forall (allowed (SAXParser._listeners this)
                (SAXParser._controller this) calls) new /\
      SAXParser._listeners this' = SAXParser._listeners this /\
      (SAXParser._controller this' = SAXParser._controller this \/
       SAXParser._controller this' = None).
Proof.
  induction calls as [|c calls IH]; intros this tr.
  - exists this, [], (Normal ()). cbn. rewrite app_nil_r. eauto.
  - cbn [SAXParser.perform_all]. rewrite perform_drive. cbn zeta.
    set (d := drive _ _ _ _).
    pose proof (effects_allowed d c this calls) as Hfirst.
    pose proof (finished_controller c d this) as Hk.
    destruct (propagated d) as [[]|e].
    + destruct (IH (finished c d this) (tr ++ effects d (during c this)))
        as (this' & new & r & -> & Hnew & Hl & Hk').
      exists this', (effects d (during c this) ++ new), r.
      rewrite app_assoc. split; [done|]. split; [|split].
      * apply Forall_app. split; [done|].
        rewrite finished_listeners in Hnew.
        eapply Forall_impl; [exact Hnew|]. intros eff.
        apply allowed_later. done.
      * by rewrite Hl, finished_listeners.
      * destruct Hk' as [->| ->]; eauto.
    + exists (finished c d this), (effects d (during c this)), (Throw e).
      split; [done|]. split; [done|]. split; [apply finished_listeners|done].
Qed.

(** X6.  A sequence of calls only adds to what the consumer has been told,
    and what it adds are calls of listeners with events of the name they
    are subscribed to: a listener is never called with an event of another
    name, and an event whose name has no listener calls no one.  The calls
    leave the subscriptions as they are. *)
Theorem only_subscribed_listeners_are_called (calls : list SAXParser.call)
    (this : SAXParser.t) (tr : list SAXParser.effect) :
  exists this' new r,
    SAXParser.perform_all calls this tr = Some (this', tr ++ new, r) /\
    SAXParser._listeners this' = SAXParser._listeners this /\
    forall listener event,
      SAXParser.Call listener event ∈ new ->
      listener ∈ default [] (SAXParser._listeners this !! event_name event).
Proof.
  destruct (perform_all_allowed calls this tr)
    as (this' & new & r & Hp & Hnew & Hl & _).
  exists this', new, r. split; [done|]. split; [done|].
  intros listener event Hin. rewrite Forall_forall in Hnew.
  exact (Hnew _ Hin).
Qed.

(** X7.  The controller given to [write] is used during that call only.
    On a parser that holds no controller, a sequence of calls leaves none,
    and an error is told only to a controller that one of the [write] calls
    of the sequence was given; [parse] tells no controller. *)
Theorem controller_is_used_during_write_only (calls : list SAXParser.call)
    (this : SAXParser.t) (tr : list SAXParser.effect) :
  SAXParser._controller this = None ->
  exists this' new r,
    SAXParser.perform_all calls this tr = Some (this', tr ++ new, r) /\
    SAXParser._controller this' = None /\
    forall controller e,
      SAXParser.Controller_error controller e ∈ new ->
      exists chunk, SAXParser.Write chunk (Some controller) ∈ calls.
Proof.
  intros Hnone.
  destruct (perform_all_allowed calls this tr)
    as (this' & new & r & Hp & Hnew & _ & Hk).
  exists this', new, r. split; [done|]. split.
  - destruct Hk as [->| ->]; done.
  - intros controller e Hin. rewrite Forall_forall in Hnew.
    destruct (Hnew _ Hin) as [Hc|Hw]; [congruence|done].
Qed.

Context `{EqDecision Listener}.

Lemma events_to_app (listener : Listener) (tr tr' : list SAXParser.effect) :
  events_to listener (tr ++ tr')
  = events_to listener tr ++ events_to listener tr'.
Proof. apply flat_map_app. Qed.

Lemma events_to_calls (listener : Listener) (event : XMLParseEvent)
    (ls : list Listener) :
  events_to listener (map (fun l => SAXParser.Call l event) ls)
  = (fun _ => event) <$> filter (fun l => l = listener) ls.
Proof.
  induction ls as [|l ls IH]; [done|].
  cbn [map]. change (events_to listener (?x :: ?t))
    with ((match x with
           | SAXParser.Call l event =>
               if decide (l = listener) then [event] else []
           | SAXParser.Controller_error _ _ => []
           end) ++ events_to listener t).
  rewrite IH, filter_cons. destruct (decide (l = listener)); done.
Qed.

Lemma filter_absent (listener : Listener) (ls : list Listener) :
  listener ∉ ls -> filter (fun l => l = listener) ls = [].
Proof.
  induction ls as [|l ls IH]; [done|].
  intros [Hne Hnot]%not_elem_of_cons.
  rewrite filter_cons. destruct (decide (l = listener)); [congruence|auto].
Qed.

Lemma events_to_fireAll (listener : Listener) (name : string)
    (events : list XMLParseEvent) (this : SAXParser.t) :
  filter (fun l => l = listener)
    (default [] (SAXParser._listeners this !! name)) = [listener] ->
  (forall other, other <> name ->
     listener ∉ default [] (SAXParser._listeners this !! other)) ->
  events_to listener (SAXParser.fireAll events this)
  = filter (fun event => event_name event = name) events.
Proof.
  intros Hone Hother. unfold SAXParser.fireAll.
  induction events as [|event events IH]; [done|].
  cbn [flat_map]. rewrite events_to_app, IH, filter_cons.
  unfold SAXParser.fireListeners. rewrite events_to_calls.
  destruct (decide (event_name event = name)) as [->|Hne].
  - by rewrite Hone.
  - by rewrite filter_absent by auto.
Qed.

(** X8.  A listener subscribed once, to one name, is called with exactly the
    events of that name that the call produces, each once, in the order
    they are produced: the handlers' events and, for the name ['error'],
    the error of a caught [XMLParseError]. *)
Theorem a_listener_sees_the_events_of_its_name (listener : Listener)
    (name : string) (c : SAXParser.call) (this : SAXParser.t)
    (tr : list SAXParser.effect) :
  let b := SAXParser.base this in
  let d := drive (handlers b) (text_of c) (position b) (cx b) in
  filter (fun l => l = listener)
    (default [] (SAXParser._listeners this !! name)) = [listener] ->
  (forall other, other <> name ->
     listener ∉ default [] (SAXParser._listeners this !! other)) ->
  exists this' new r,
    SAXParser.perform c this tr = Some (this', tr ++ new, r) /\
    events_to listener new
    = filter (fun event => event_name event = name) (notified d).
Proof.
  intros b d Hone Hother. eexists. eexists. eexists.
  rewrite perform_drive. split; [reflexivity|].
  fold b d. unfold effects. rewrite events_to_app, fireAll_during.
  rewrite (events_to_fireAll listener name) by done.
  unfold signalled, SAXParser.controller_error.
  destruct (outcome d) as [[]|[e|m]]; rewrite ?app_nil_r; try done.
  destruct (SAXParser._controller _); cbn; by rewrite app_nil_r.
Qed.

End Consumer.

(** ** Results, more text, and bytes that are ASCII *)
Section More.
Context `{Handler_ts} `{Host_js}.

(** X9.  [marshallEvent] gives a result the name of the event and never an
    [error] property.  For every event but ['error'] the result holds the
    whole payload: the event can be read back from it, so two such events
    with the same result are the same event.  For an ['error'] event the
    result is the bare name: the error is lost (the results that carry an
    error are made in the [catch] clause of [parse]). *)
Theorem marshallEvent_keeps_all_but_an_error :
  (forall event,
     PullParser.name (PullParser.marshallEvent event) = event_name event /\
     PullParser.error (PullParser.marshallEvent event) = None) /\
  (forall event,
     is_error_event event = false ->
     event_of (PullParser.marshallEvent event) = Some event) /\
  (forall e,
     PullParser.marshallEvent (Ev_error e) = PullParser.result "error" /\
     event_of (PullParser.marshallEvent (Ev_error e)) = None) /\
  (forall event event',
     is_error_event event = false ->
     PullParser.marshallEvent event = PullParser.marshallEvent event' ->
     event = event').
Proof.
  assert (Hback : forall event, is_error_event event = false ->
            event_of (PullParser.marshallEvent event) = Some event)
    by (intros []; done).
  split; [by intros []|]. split; [exact Hback|]. split; [done|].
  intros event event' Hne Heq.
  pose proof (Hback event Hne) as Hev. rewrite Heq in Hev.
  destruct (is_error_event event') eqn:Hne'.
  - destruct event'; discriminate.
  - rewrite (Hback event' Hne') in Hev. congruence.
Qed.

Lemma drive_more (hs : gmap string XMLParseHandler) (cs more : jsstring)
    (pos : XMLPosition) (cx : XMLParseContext) :
  let d := drive hs cs pos cx in
  let d' := drive hs (cs ++ more) pos cx in
  (exists events, notified d' = notified d ++ events) /\
  (forall this : SAXParser.t, exists new, effects d' this = effects d this ++ new) /\
  (exists results, yields d' = yields d ++ results).
Proof.
  cbn zeta. rewrite drive_app. cbn zeta.
  set (d := drive hs cs pos cx).
  destruct (outcome d) as [[]|e] eqn:Ho.
  - set (d' := drive hs more _ _).
    unfold notified, effects, yields, signalled, notified. cbn. rewrite Ho.
    split; [|split].
    + destruct (outcome d') as [[]|[e|m]]; rewrite <- ?app_assoc;
        eexists; reflexivity.
    + intros this. rewrite app_nil_r. unfold SAXParser.fireAll.
      destruct (outcome d') as [[]|[e|m]];
        rewrite ?flat_map_app, <- ?app_assoc; eexists; reflexivity.
    + rewrite app_nil_r, map_app, <- app_assoc. eexists; reflexivity.
  - split; [|split]; [exists []|intros this; exists []|exists []];
      by rewrite app_nil_r.
Qed.

Lemma drive_consumed (hs : gmap string XMLParseHandler) (cs : jsstring) :
  forall (pos : XMLPosition) (cx : XMLParseContext),
    (consumed (drive hs cs pos cx) <= length cs)%nat.
Proof.
  induction cs as [|c cs IH]; intros pos cx; [cbn; lia|].
  rewrite drive_cons. destruct (hs !! state cx) as [handler|]; [|cbn; lia].
  cbn zeta. destruct (handler _ _ _) as [cx' [events|e]]; cbn; [|lia].
  specialize (IH (advance pos (Some c)) cx'). lia.
Qed.

(** X10.  More text at the end of a text only adds to what it produces: the
    listener calls and the results for the longer text begin with those
    for the text itself, in the same order.  Nothing already dispatched or
    yielded depends on characters that come later. *)
Theorem more_text_only_adds (cs more : jsstring) (this : SAXParser.t)
    (tr : list SAXParser.effect) :
  let b := SAXParser.base this in
  exists this1 this2 b1 b2 new new' results results' r r',
    SAXParser.parse (inl cs) this tr = Some (this1, tr ++ new, r) /\
    SAXParser.parse (inl (cs ++ more)) this tr
    = Some (this2, tr ++ new ++ new', r') /\
    PullParser.parse (inl cs) b = Some (b1, results, r) /\
    PullParser.parse (inl (cs ++ more)) b = Some (b2, results ++ results', r').
Proof.
  intros b.
  destruct (drive_more (handlers b) cs more (position b) (cx b))
    as (_ & Heff & [results' Hy]).
  destruct (Heff this) as [new' Hnew].
  do 4 eexists. eexists. exists new'. eexists. exists results'.
  do 2 eexists.
  split; [apply run_chunk|]. split.
  - unfold SAXParser.parse. rewrite run_chunk. fold b. by rewrite Hnew.
  - split; [apply parse_drive|].
    rewrite parse_drive. cbn [chunk_of]. fold b. by rewrite Hy.
Qed.

(** X11.  When the loop over a text is left by an exception, whatever
    follows the text in the same chunk is never read: with or without it
    the call dispatches and yields the same, ends the same way, and leaves
    the same context, position and cursor. *)
Theorem text_after_an_exception_is_not_read (cs more : jsstring)
    (this : SAXParser.t) (tr : list SAXParser.effect) (e : exn) :
  let b := SAXParser.base this in
  let d := drive (handlers b) cs (position b) (cx b) in
  outcome d = Throw e ->
  exists this1 this2 b1 b2,
    SAXParser.parse (inl cs) this tr
    = Some (this1, tr ++ effects d this, propagated d) /\
    SAXParser.parse (inl (cs ++ more)) this tr
    = Some (this2, tr ++ effects d this, propagated d) /\
    PullParser.parse (inl cs) b = Some (b1, yields d, propagated d) /\
    PullParser.parse (inl (cs ++ more)) b = Some (b2, yields d, propagated d) /\
    SAXParser.base this1 = b1 /\ SAXParser.base this2 = b2 /\
    cx b2 = cx b1 /\ position b2 = position b1 /\ _index b2 = _index b1 /\
    (more <> [] -> hasNext b2 = true).
Proof.
  intros b d Ho.
  assert (Hd : drive (handlers b) (cs ++ more) (position b) (cx b) = d)
    by (rewrite drive_app; fold d; by rewrite Ho).
  exists (SAXParser.with_base (after d (set_chunk cs b)) this),
    (SAXParser.with_base (after d (set_chunk (cs ++ more) b)) this),
    (after d (set_chunk cs b)), (after d (set_chunk (cs ++ more) b)).
  split; [apply run_chunk|]. split.
  { unfold SAXParser.parse. rewrite run_chunk. fold b. by rewrite Hd. }
  split; [apply parse_drive|]. split.
  { rewrite parse_drive. cbn [chunk_of]. by rewrite Hd. }
  repeat (split; [reflexivity|]).
  intros Hmore. unfold hasNext, js_length. cbn. apply Z.ltb_lt.
  rewrite length_app.
  pose proof (drive_consumed (handlers b) cs (position b) (cx b)) as Hle.
  fold d in Hle. destruct more; [done|cbn; lia].
Qed.

(** X12.  On the same input the two parsers end in the same state: the
    same context, position, cursor and chunk, with the same completion. *)
Theorem both_parsers_end_in_the_same_state (c : SAXParser.call)
    (this : SAXParser.t) (tr : list SAXParser.effect) :
  let b := SAXParser.base this in
  exists this' tr' b' results r,
    SAXParser.perform c this tr = Some (this', tr', r) /\
    PullParser.parse (source_of c) b = Some (b', results, r) /\
    SAXParser.base this' = b' /\
    _chunk b' = text_of c /\ handlers b' = handlers b /\
    SAXParser._listeners this' = SAXParser._listeners this.
Proof.
  intros b. do 5 eexists.
  rewrite perform_drive, parse_drive, text_of_source.
  split; [reflexivity|]. split; [reflexivity|].
  rewrite finished_base, finished_listeners. done.
Qed.

End More.

(** ** Bytes that are ASCII *)
Section Ascii.
Context `{Handler_ts} `{!Errored_ts} `{Host_js}.

Lemma utf8_ascii (bytes : list Z) :
  ascii bytes -> TextDecoder.utf8 None bytes = bytes.
Proof.
  induction 1 as [|b bytes Hb _ IH]; [done|].
  cbn [TextDecoder.utf8]. unfold TextDecoder.lead.
  replace (TextDecoder.between 0x00 0x7F b) with true
    by (symmetry; apply between_spec; lia).
  cbn. by rewrite IH.
Qed.

Lemma utf16_ascii (bytes : list Z) :
  ascii bytes -> flat_map TextDecoder.utf16 bytes = bytes.
Proof.
  induction 1 as [|b bytes Hb _ IH]; [done|].
  cbn [flat_map]. rewrite IH. unfold TextDecoder.utf16.
  destruct (Z.ltb_spec b 0x10000); [done|lia].
Qed.

Lemma decode_ascii (bytes : list Z) :
  ascii bytes -> TextDecoder.decode bytes = bytes.
Proof.
  intros Ha. unfold TextDecoder.decode. rewrite (utf8_ascii _ Ha).
  destruct Ha as [|b bytes Hb Ha]; [done|].
  unfold TextDecoder.strip_bom, TextDecoder.BOM.
  destruct (Z.eqb_spec b 0xFEFF); [lia|].
  apply utf16_ascii. by constructor.
Qed.

Lemma with_controller_None (this : SAXParser.t) :
  SAXParser._controller this = None ->
  SAXParser.with_controller None this = this.
Proof. destruct this. cbn. by intros ->. Qed.

Lemma perform_ascii (bytes : list Z) (this : SAXParser.t)
    (tr : list SAXParser.effect) :
  ascii bytes ->
  SAXParser._controller this = None ->
  SAXParser.perform (SAXParser.Write bytes None) this tr
  = SAXParser.perform (SAXParser.Parse (inl bytes)) this tr.
Proof.
  intros Ha Hk. rewrite !perform_drive.
  cbn [text_of chunk_of during finished]. rewrite (decode_ascii _ Ha).
  rewrite (with_controller_None this Hk).
  rewrite with_controller_None by done. reflexivity.
Qed.

(** X13.  Bytes that are all ASCII decode to themselves, so [parse] of such
    bytes is [parse] of the string with the same characters: the
    [PullParser] yields the same and ends in the same state, and so does a
    [SAXParser] that holds no controller, also when the bytes are given to
    [write] without a controller. *)
Theorem ascii_bytes_parse_like_the_string (bytes : list Z) :
  ascii bytes ->
  TextDecoder.decode bytes = bytes /\
  (forall this : ParserBase,
     PullParser.parse (inr bytes) this = PullParser.parse (inl bytes) this) /\
  (forall (this : SAXParser.t) tr,
     SAXParser._controller this = None ->
     SAXParser.parse (inr bytes) this tr = SAXParser.parse (inl bytes) this tr /\
     SAXParser.write bytes None this tr = SAXParser.parse (inl bytes) this tr).
Proof.
  intros Ha. split; [by apply decode_ascii|]. split.
  - intros this. unfold PullParser.parse. by rewrite (decode_ascii _ Ha).
  - intros this tr Hk.
    pose proof (perform_ascii bytes this tr Ha Hk) as Hp. cbn in Hp.
    split; exact Hp.
Qed.

Lemma perform_all_ascii (chunks : list (list Z)) :
  Forall ascii chunks ->
  forall (this : SAXParser.t) (tr : list SAXParser.effect),
    SAXParser._controller this = None ->
    SAXParser.perform_all
      (map (fun chunk => SAXParser.Write chunk None) chunks) this tr
    = SAXParser.perform_all
        (map (fun chunk => SAXParser.Parse (inl chunk)) chunks) this tr.
Proof.
  induction 1 as [|chunk chunks Ha _ IH]; intros this tr Hk; [done|].
  cbn [map SAXParser.perform_all]. rewrite (perform_ascii _ _ _ Ha Hk).
  rewrite perform_drive. cbn zeta.
  destruct (propagated _) as [[]|e]; [|done]. by apply IH.
Qed.

Lemma concat_ascii (chunks : list (list Z)) :
  Forall ascii chunks -> ascii (concat chunks).
Proof.
  unfold ascii. induction 1 as [|chunk chunks Ha _ IH]; cbn; [constructor|].
  by apply Forall_app.
Qed.

(** X14.  Bytes that are all ASCII can be written in pieces: on a parser
    that holds no controller, [write] called for each piece in turn gives
    the listeners the same calls, and ends the same way, as one [write] of
    all the bytes.  As for chunks of text, this is for bytes on which no
    handler throws an [XMLParseError], or handlers that keep to the
    discipline of the dead Context. *)
Theorem ascii_bytes_can_be_written_in_pieces (chunks : list (list Z))
    (this : SAXParser.t) (tr : list SAXParser.effect) :
  let b := SAXParser.base this in
  let d := drive (handlers b) (concat chunks) (position b) (cx b) in
  Forall ascii chunks ->
  SAXParser._controller this = None ->
  error_is_final (handlers b) (concat chunks) (position b) (cx b) ->
  exists this1 this2,
    SAXParser.perform_all
      (map (fun chunk => SAXParser.Write chunk None) chunks) this tr
    = Some (this1, tr ++ effects d this, propagated d) /\
    SAXParser.write (concat chunks) None this tr
    = Some (this2, tr ++ effects d this, propagated d).
Proof.
  intros b d Ha Hk Hfinal.
  destruct (perform_all_concat chunks this tr Hfinal) as (this1 & Hp).
  exists this1. eexists. split.
  - by rewrite perform_all_ascii.
  - rewrite write_drive, (decode_ascii _ (concat_ascii _ Ha)).
    by rewrite (with_controller_None this Hk).
Qed.

End Ascii.


(** ** What the handlers are given, and where the chunks leave the parser *)
Section Given.
Context `{Handler_ts} `{Host_js}.

Lemma drive_same (hs1 hs2 : gmap string XMLParseHandler) (cs : jsstring) :
  same_on_characters hs1 hs2 ->
  forall (pos : XMLPosition) (cx : XMLParseContext),
    drive hs1 cs pos cx = drive hs2 cs pos cx.
Proof.
  intros Hsame. induction cs as [|c cs IH]; intros pos cx; [done|].
  rewrite !drive_cons. specialize (Hsame (state cx)).
  destruct (hs1 !! state cx) as [h1|], (hs2 !! state cx) as [h2|];
    try done.
  cbn zeta. rewrite Hsame.
  destruct (h2 _ _ _) as [cx' [events|e]]; [|done]. by rewrite IH.
Qed.

(** X15.  A handler is only ever called with a character of the chunk,
    never with [undefined]: two parsers in the same context and position
    whose tables do the same with every character, whatever they do with
    [undefined], yield the same results, dispatch the same events, end the
    same way and leave the same context, position and cursor. *)
Theorem handlers_are_given_characters_only (c : SAXParser.call)
    (this : SAXParser.t) (tr : list SAXParser.effect) (b2 : ParserBase) :
  let b1 := SAXParser.base this in
  cx b2 = cx b1 ->
  position b2 = position b1 ->
  same_on_characters (handlers b1) (handlers b2) ->
  exists this1 this2 p1 p2 tr' results r,
    SAXParser.perform c this tr = Some (this1, tr', r) /\
    SAXParser.perform c (SAXParser.with_base b2 this) tr
    = Some (this2, tr', r) /\
    PullParser.parse (source_of c) b1 = Some (p1, results, r) /\
    PullParser.parse (source_of c) b2 = Some (p2, results, r) /\
    cx p2 = cx p1 /\ position p2 = position p1 /\ _index p2 = _index p1.
Proof.
  intros b1 Hcx Hpos Hsame. do 7 eexists.
  rewrite !perform_drive, !parse_drive, text_of_source.
  cbn [SAXParser.base SAXParser.with_base]. fold b1.
  rewrite Hcx, Hpos, <- (drive_same _ _ (text_of c) Hsame).
  split; [reflexivity|]. split.
  { f_equal. f_equal. f_equal. f_equal.
    unfold effects, signalled. rewrite !fireAll_during.
    by destruct c as [[?|?]|? ?]. }
  split; [reflexivity|]. split; [reflexivity|]. done.
Qed.

Lemma perform_all_concat_state (chunks : list jsstring) :
  forall (this : SAXParser.t) (tr : list SAXParser.effect),
    let b := SAXParser.base this in
    let d := drive (handlers b) (concat chunks) (position b) (cx b) in
    outcome d = Normal () ->
    exists this' tr',
      SAXParser.perform_all
        (map (fun chunk => SAXParser.Parse (inl chunk)) chunks) this tr
      = Some (this', tr', Normal ()) /\
      cx (SAXParser.base this') = cx_after d /\
      position (SAXParser.base this') = position_after d /\
      handlers (SAXParser.base this') = handlers b.
Proof.
  induction chunks as [|chunk chunks IH]; intros this tr b d Ho.
  - exists this, tr. done.
  - cbn [map SAXParser.perform_all]. rewrite perform_drive. cbn zeta.
    fold b. cbn [text_of chunk_of].
    set (d1 := drive (handlers b) chunk (position b) (cx b)).
    assert (Hd : d = match outcome d1 with
                     | Normal _ =>
                         let d' := drive (handlers b) (concat chunks)
                                     (position_after d1) (cx_after d1) in
                         {| consumed := consumed d1 + consumed d';
                            position_after := position_after d';
                            cx_after := cx_after d';
                            emitted := emitted d1 ++ emitted d';
                            outcome := outcome d' |}
                     | Throw _ => d1
                     end) by apply drive_app.
    destruct (outcome d1) as [[]|e] eqn:Ho1;
      [|rewrite Hd in Ho; congruence].
    unfold propagated. rewrite Ho1.
    destruct (IH (finished (SAXParser.Parse (inl chunk)) d1 this)
                (tr ++ effects d1 (during (SAXParser.Parse (inl chunk)) this)))
      as (this' & tr' & -> & Hc & Hp & Hh).
    { rewrite Hd in Ho. exact Ho. }
    exists this', tr'. rewrite Hd. done.
Qed.

Lemma parse_all_concat_state (chunks : list jsstring) :
  forall this : ParserBase,
    let d := drive (handlers this) (concat chunks) (position this) (cx this) in
    outcome d = Normal () ->
    exists this' results,
      PullParser.parse_all (map inl chunks) this
      = Some (this', results, Normal ()) /\
      cx this' = cx_after d /\
      position this' = position_after d /\
      handlers this' = handlers this.
Proof.
  induction chunks as [|chunk chunks IH]; intros this d Ho.
  - exists this, []. done.
  - cbn [map PullParser.parse_all]. rewrite parse_drive. cbn zeta.
    cbn [chunk_of].
    set (d1 := drive (handlers this) chunk (position this) (cx this)).
    assert (Hd : d = match outcome d1 with
                     | Normal _ =>
                         let d' := drive (handlers this) (concat chunks)
                                     (position_after d1) (cx_after d1) in
                         {| consumed := consumed d1 + consumed d';
                            position_after := position_after d';
                            cx_after := cx_after d';
                            emitted := emitted d1 ++ emitted d';
                            outcome := outcome d' |}
                     | Throw _ => d1
                     end) by apply drive_app.
    destruct (outcome d1) as [[]|e] eqn:Ho1;
      [|rewrite Hd in Ho; congruence].
    unfold propagated. rewrite Ho1.
    destruct (IH (after d1 (set_chunk chunk this)))
      as (this' & results & -> & Hc & Hp & Hh).
    { rewrite Hd in Ho. exact Ho. }
    eexists. eexists. split; [reflexivity|]. rewrite Hd. done.
Qed.

(** X16.  When nothing is thrown on a text, the chunks it is cut into leave
    the parser where the whole text leaves it: in the same context and at
    the same position, whatever the handlers are. *)
Theorem chunks_leave_the_parser_where_the_text_does (chunks : list jsstring)
    (this : SAXParser.t) (tr : list SAXParser.effect) :
  let b := SAXParser.base this in
  let D := concat chunks in
  outcome (drive (handlers b) D (position b) (cx b)) = Normal () ->
  exists this1 this2 tr1 tr2 b1 b2 results1 results2,
    SAXParser.perform_all
      (map (fun chunk => SAXParser.Parse (inl chunk)) chunks) this tr
    = Some (this1, tr1, Normal ()) /\
    SAXParser.parse (inl D) this tr = Some (this2, tr2, Normal ()) /\
    cx (SAXParser.base this1) = cx (SAXParser.base this2) /\
    position (SAXParser.base this1) = position (SAXParser.base this2) /\
    PullParser.parse_all (map inl chunks) b = Some (b1, results1, Normal ()) /\
    PullParser.parse (inl D) b = Some (b2, results2, Normal ()) /\
    cx b1 = cx b2 /\ position b1 = position b2.
Proof.
  intros b D Ho.
  destruct (perform_all_concat_state chunks this tr Ho)
    as (this1 & tr1 & Hsax & Hc1 & Hp1 & _).
  destruct (parse_all_concat_state chunks b Ho)
    as (b1 & results1 & Hpull & Hc2 & Hp2 & _).
  exists this1. eexists. exists tr1. eexists. exists b1. eexists.
  exists results1. eexists.
  split; [exact Hsax|]. split.
  { unfold SAXParser.parse. rewrite run_chunk. fold b D.
    unfold propagated. rewrite Ho. reflexivity. }
  split; [exact Hc1|]. split; [exact Hp1|]. split; [exact Hpull|]. split.
  { rewrite parse_drive. cbn [chunk_of]. fold D.
    unfold propagated. rewrite Ho. reflexivity. }
  split; [exact Hc2|exact Hp2].
Qed.

End Given.


(** ** These properties at concrete input *)
Section MoreWitnesses.
Import Demo.

(** A parser whose context is in a state without handler. *)
Lemma demo_lost :
  let lost :=
    SAXParser.with_base
      (with_cx {| d_state := "NOT_A_STATE"; d_errored := false |} constructor)
      sax in
  handlers (SAXParser.base lost) !! state (cx (SAXParser.base lost)) = None.
Proof. vm_compute. reflexivity. Qed.

(** A byte-order mark and nothing else, written to a parser whose state has
    no handler. *)
Lemma empty_text_is_a_no_op_witness :
  let c := SAXParser.Write [0xEF; 0xBB; 0xBF] (Some 7%nat) in
  let this :=
    SAXParser.with_base
      (with_cx {| d_state := "NOT_A_STATE"; d_errored := false |} constructor)
      sax in
  let b := SAXParser.base this in
  text_of c = [] /\
  exists this' b',
    SAXParser.perform c this [] = Some (this', [], Normal ()) /\
    PullParser.parse (source_of c) b = Some (b', [], Normal ()) /\
    SAXParser.base this' = b' /\
    cx b' = cx b /\ position b' = position b /\ handlers b' = handlers b /\
    hasNext b' = false.
Proof.
  intros c this b. split; [reflexivity|].
  apply (empty_text_is_a_no_op c this []). reflexivity.
Defined.

(** ["a"] given to the same parser. *)
Lemma missing_handler_reads_nothing_witness :
  let c := SAXParser.Parse (inl [97]) in
  let this :=
    SAXParser.with_base
      (with_cx {| d_state := "NOT_A_STATE"; d_errored := false |} constructor)
      sax in
  let b := SAXParser.base this in
  text_of c = [97] /\
  handlers b !! state (cx b) = None /\
  exists this' b',
    SAXParser.perform c this []
    = Some (this', [], Throw (handler_not_found (state (cx b)))) /\
    PullParser.parse (source_of c) b
    = Some (b', [], Throw (handler_not_found (state (cx b)))) /\
    SAXParser.base this' = b' /\
    cx b' = cx b /\ position b' = position b /\
    _index b' = -1 /\ hasNext b' = true.
Proof.
  intros c this b. split; [reflexivity|]. split; [apply demo_lost|].
  apply (missing_handler_reads_nothing c this [] 97 []);
    [reflexivity|apply demo_lost].
Defined.

(** ["<!"] written with the controller 7, then ["!"] parsed. *)
Lemma controller_is_used_during_write_only_witness :
  let calls := [SAXParser.Write [60; 33] (Some 7%nat);
                SAXParser.Parse (inl [33])] in
  SAXParser._controller sax = None /\
  exists this' new r,
    SAXParser.perform_all calls sax [] = Some (this', [] ++ new, r) /\
    SAXParser._controller this' = None /\
    forall controller e,
      SAXParser.Controller_error controller e ∈ new ->
      exists chunk, SAXParser.Write chunk (Some controller) ∈ calls.
Proof.
  intros calls. split; [reflexivity|].
  apply (controller_is_used_during_write_only calls sax []). reflexivity.
Defined.

Lemma demo_listeners :
  SAXParser._listeners sax
  = <["error" := [4%nat]]>
      (<["text" := [1%nat; 3%nat]]> (<["start_document" := [2%nat]]> ∅)).
Proof. vm_compute. reflexivity. Qed.

Lemma demo_listener_2 (other : string) :
  other <> "start_document" ->
  2%nat ∉ default [] (SAXParser._listeners sax !! other).
Proof.
  intros Hne. rewrite demo_listeners.
  rewrite !lookup_insert. repeat case_decide; subst; cbn; try done.
  - by intros [=]%list_elem_of_singleton.
  - intros [[=]|[=]%list_elem_of_singleton]%elem_of_cons.
  - rewrite lookup_empty. cbn. apply not_elem_of_nil.
Qed.

(** The listener 2 of the small instance, subscribed to
    ['start_document'], and the text ["<a"]. *)
Lemma a_listener_sees_the_events_of_its_name_witness :
  let c := SAXParser.Parse (inl [60; 97]) in
  let name := "start_document"%string in
  let listener : Listener := 2%nat in
  let b := SAXParser.base sax in
  let d := drive (handlers b) (text_of c) (position b) (cx b) in
  filter (fun l => l = listener)
    (default [] (SAXParser._listeners sax !! name)) = [listener] /\
  (forall other, other <> name ->
     listener ∉ default [] (SAXParser._listeners sax !! other)) /\
  exists this' new r,
    SAXParser.perform c sax [] = Some (this', [] ++ new, r) /\
    events_to listener new
    = filter (fun event => event_name event = name) (notified d).
Proof.
  intros c name listener b d. split; [vm_compute; reflexivity|].
  split; [apply demo_listener_2|].
  apply (a_listener_sees_the_events_of_its_name listener name c sax []);
    [vm_compute; reflexivity|apply demo_listener_2].
Defined.

(** ["<!"] and ["<!a"]: the ['a'] after the error is not read. *)
Lemma text_after_an_exception_is_not_read_witness :
  let cs := [60; 33] in
  let more := [97] in
  let e : exn :=
    Throw_XMLParseError
      {| message := "unexpected !";
         at_position := {| line := 1; column := 2 |} |} in
  let b := SAXParser.base sax in
  let d := drive (handlers b) cs (position b) (cx b) in
  outcome d = Throw e /\
  exists this1 this2 b1 b2,
    SAXParser.parse (inl cs) sax []
    = Some (this1, [] ++ effects d sax, propagated d) /\
    SAXParser.parse (inl (cs ++ more)) sax []
    = Some (this2, [] ++ effects d sax, propagated d) /\
    PullParser.parse (inl cs) b = Some (b1, yields d, propagated d) /\
    PullParser.parse (inl (cs ++ more)) b = Some (b2, yields d, propagated d) /\
    SAXParser.base this1 = b1 /\ SAXParser.base this2 = b2 /\
    cx b2 = cx b1 /\ position b2 = position b1 /\ _index b2 = _index b1 /\
    (more <> [] -> hasNext b2 = true).
Proof.
  intros cs more e b d. split; [vm_compute; reflexivity|].
  apply (text_after_an_exception_is_not_read cs more sax [] e).
  vm_compute. reflexivity.
Defined.

Lemma demo_ascii : Forall ascii [[60]; [97; 33]; [98]].
Proof. unfold ascii. repeat constructor; lia. Qed.

(** The bytes of ["<a"]. *)
Lemma ascii_bytes_parse_like_the_string_witness :
  let bytes := [60; 97] in
  ascii bytes /\
  TextDecoder.decode bytes = bytes /\
  (forall this : ParserBase,
     PullParser.parse (inr bytes) this = PullParser.parse (inl bytes) this) /\
  (forall (this : SAXParser.t) tr,
     SAXParser._controller this = None ->
     SAXParser.parse (inr bytes) this tr = SAXParser.parse (inl bytes) this tr /\
     SAXParser.write bytes None this tr = SAXParser.parse (inl bytes) this tr).
Proof.
  intros bytes.
  assert (Ha : ascii bytes) by (unfold ascii; repeat constructor; lia).
  split; [exact Ha|].
  apply (ascii_bytes_parse_like_the_string bytes Ha).
Defined.

(** The bytes of ["<a!b"] written as ["<"], ["a!"], ["b"]. *)
Lemma ascii_bytes_can_be_written_in_pieces_witness :
  let chunks := [[60]; [97; 33]; [98]] in
  let b := SAXParser.base sax in
  let d := drive (handlers b) (concat chunks) (position b) (cx b) in
  Forall ascii chunks /\
  SAXParser._controller sax = None /\
  error_is_final (handlers b) (concat chunks) (position b) (cx b) /\
  exists this1 this2,
    SAXParser.perform_all
      (map (fun chunk => SAXParser.Write chunk None) chunks) sax []
    = Some (this1, [] ++ effects d sax, propagated d) /\
    SAXParser.write (concat chunks) None sax []
    = Some (this2, [] ++ effects d sax, propagated d).
Proof.
  intros chunks b d. split; [apply demo_ascii|]. split; [reflexivity|].
  split; [left; apply demo_discipline|].
  apply (ascii_bytes_can_be_written_in_pieces chunks sax []);
    [apply demo_ascii|reflexivity|left; apply demo_discipline].
Defined.

Lemma demo_same :
  same_on_characters (handlers constructor)
    (handlers (appendHandler "BEFORE_DOCUMENT" handle_defined constructor)).
Proof.
  intros st.
  change (handlers (appendHandler "BEFORE_DOCUMENT" handle_defined constructor))
    with (<["BEFORE_DOCUMENT" := handle_defined]> (handlers constructor)).
  generalize (constructor_lookup "BEFORE_DOCUMENT" handle).
  generalize (handlers constructor). intros hs Hlookup.
  rewrite lookup_insert.
  destruct (decide ("BEFORE_DOCUMENT"%string = st)) as [<-|Hne].
  - rewrite (proj2 Hlookup) by apply list_elem_of_here. reflexivity.
  - destruct (hs !! st); [reflexivity|exact I].
Qed.

(** ["<a"] with the table of the small instance and with a table whose
    handler for [BEFORE_DOCUMENT] throws on [undefined]. *)
Lemma handlers_are_given_characters_only_witness :
  let c := SAXParser.Parse (inl [60; 97]) in
  let b2 := appendHandler "BEFORE_DOCUMENT" handle_defined constructor in
  let b1 := SAXParser.base sax in
  cx b2 = cx b1 /\
  position b2 = position b1 /\
  same_on_characters (handlers b1) (handlers b2) /\
  exists this1 this2 p1 p2 tr' results r,
    SAXParser.perform c sax [] = Some (this1, tr', r) /\
    SAXParser.perform c (SAXParser.with_base b2 sax) []
    = Some (this2, tr', r) /\
    PullParser.parse (source_of c) b1 = Some (p1, results, r) /\
    PullParser.parse (source_of c) b2 = Some (p2, results, r) /\
    cx p2 = cx p1 /\ position p2 = position p1 /\ _index p2 = _index p1.
Proof.
  intros c b2 b1. split; [reflexivity|]. split; [reflexivity|].
  split; [apply demo_same|].
  apply (handlers_are_given_characters_only c sax [] b2);
    [reflexivity|reflexivity|apply demo_same].
Defined.

(** ["<ab"] as ["<"], ["ab"]. *)
Lemma chunks_leave_the_parser_where_the_text_does_witness :
  let chunks := [[60]; [97; 98]] in
  let b := SAXParser.base sax in
  let D := concat chunks in
  outcome (drive (handlers b) D (position b) (cx b)) = Normal () /\
  exists this1 this2 tr1 tr2 b1 b2 results1 results2,
    SAXParser.perform_all
      (map (fun chunk => SAXParser.Parse (inl chunk)) chunks) sax []
    = Some (this1, tr1, Normal ()) /\
    SAXParser.parse (inl D) sax [] = Some (this2, tr2, Normal ()) /\
    cx (SAXParser.base this1) = cx (SAXParser.base this2) /\
    position (SAXParser.base this1) = position (SAXParser.base this2) /\
    PullParser.parse_all (map inl chunks) b = Some (b1, results1, Normal ()) /\
    PullParser.parse (inl D) b = Some (b2, results2, Normal ()) /\
    cx b1 = cx b2 /\ position b1 = position b2.
Proof.
  intros chunks b D. split; [vm_compute; reflexivity|].
  apply (chunks_leave_the_parser_where_the_text_does chunks sax []).
  vm_compute. reflexivity.
Defined.

(** The small instance, read. *)
Example demo_reads :
  let r := reads 4 (set_chunk [97; 10; 98] constructor) in
  r.1 = [Some 97; Some 10; Some 98; None] /\
  position r.2 = {| line := 2; column := 2 |} /\
  _index r.2 = 3.
Proof. vm_compute. repeat split. Qed.

End MoreWitnesses.
